(** * audientify: the voice activity detector of [audio_segment.py]

    A shallow embedding of [fill_gap], [VoiceActivityDetector.detect],
    [VoiceActivityDetector.is_test_noise] and the table built by [VADJob],
    with the properties the specification states about them and further
    properties read off the code.

    Conventions of the embedding.
    - A one-dimensional NumPy array is a [list]; a boolean array is a
      [list bool], and [astype_int] is the cast to 0/1 that NumPy applies
      when a boolean array enters arithmetic.
    - Python integers are [Z] and Python floats are binary64 values
      ([PrimFloat.float]); a numeric argument of [detect] that enters
      arithmetic ([window_sec], [silence_sec], [buffer_sec]) is a [number],
      one or the other.  Divisions, products and [int(...)] are those of
      Python: correctly rounded, with [ZeroDivisionError], [OverflowError]
      and [ValueError] where Python raises them.
    - Values that are only compared (the loudness trace, the ratios and the
      thresholds) are the rational numbers they denote ([Q]), compared
      exactly.  The counts produced by the convolutions are small integers,
      which binary64 represents exactly, so they are kept in [Z].
    - An [int64] column holds elements of [Z] kept in range by [wrap64]; a
      Python integer that meets such a column is taken to fit in 64 bits.
    - An exception is a value of [exn]; code that may raise returns a
      [result].
    - A pandas frame is the list of its rows: boolean indexing is a filter
      and [apply(..., axis=1)] maps over the rows of a frame that has some.
      On a frame without rows [apply] hands back a copy of the frame, not a
      column, and assigning that to a single column raises [ValueError]. *)

From Stdlib Require Import Floats.PrimFloat Floats.FloatOps Floats.SpecFloat Floats.FloatAxioms.
From Stdlib Require Import List Bool Arith ZArith QArith Qround Lia Lqa Sorting.Sorted.
From Stdlib Require Strings.String Numbers.DecimalString Numbers.DecimalNat Numbers.DecimalFacts.
From Stdlib Require Lists.Finite.
Import ListNotations.

Close Scope Q_scope.

(* A decimal float literal denotes the nearest binary64 value, as in Python. *)
Set Warnings "-inexact-float".

Set Implicit Arguments.

(** ** Exceptions *)

Inductive exn : Type :=
| ZeroDivisionError
| ValueError
| AssertionError
| OverflowError.

Inductive result (A : Type) : Type :=
| Ok (a : A)
| Raise (e : exn).

Arguments Ok {A} a.
Arguments Raise {A} e.

Definition bind {A B : Type} (r : result A) (f : A -> result B) : result B :=
  match r with
  | Ok a => f a
  | Raise e => Raise e
  end.

Notation "x <- r ;; k" := (bind r (fun x => k))
  (at level 61, r at next level, right associativity).

(** ** Python and NumPy primitives used by the module *)

(** A Python number: an [int] or a [float]. *)
Inductive number : Type :=
| Int (z : Z)
| Float (f : float).

Module Py.

(** Truncation toward zero of a rational number. *)
Definition int (x : Q) : Z := Z.quot (Qnum x) (Z.pos (Qden x)).

(** The rational number a finite float denotes. *)
Definition float_value (x : float) : Q :=
  match Prim2SF x with
  | S754_finite s m e => (inject_Z (cond_Zopp s (Z.pos m)) * Qpower 2 e)%Q
  | _ => 0%Q
  end.

(** [int(x)] on a float: truncation toward zero; a NaN and an infinity are
    refused. *)
Definition int_float (x : float) : result Z :=
  match Prim2SF x with
  | S754_nan => Raise ValueError
  | S754_infinity _ => Raise OverflowError
  | _ => Ok (int (float_value x))
  end.

(** A rounded result as a float; Python refuses a conversion or an integer
    division whose result is too large for a float. *)
Definition finite (r : spec_float) : result float :=
  match r with
  | S754_infinity _ => Raise OverflowError
  | _ => Ok (SF2Prim r)
  end.

(** [float(z)]: the nearest float, ties to even. *)
Definition float_of_int (z : Z) : result float :=
  finite (binary_normalize prec emax z 0 false).

(** An integer as an unrounded binary number. *)
Definition exact (z : Z) : spec_float :=
  match z with
  | Z0 => S754_zero false
  | Zpos p => S754_finite false p 0
  | Zneg p => S754_finite true p 0
  end.

(** [a / b] on two integers: the quotient rounded once. *)
Definition truediv_int (a b : Z) : result float :=
  if (b =? 0)%Z then Raise ZeroDivisionError
  else finite (SFdiv prec emax (exact a) (exact b)).

Definition to_float (x : number) : result float :=
  match x with
  | Int z => float_of_int z
  | Float f => Ok f
  end.

(** [x / y] on numbers. *)
Definition truediv (x y : number) : result float :=
  match x, y with
  | Int a, Int b => truediv_int a b
  | _, _ =>
      fx <- to_float x ;;
      fy <- to_float y ;;
      if is_zero fy then Raise ZeroDivisionError else Ok (fx / fy)%float
  end.

(** [x * y] with a float on the left. *)
Definition mul_float (x : float) (y : number) : result float :=
  fy <- to_float y ;; Ok (x * fy)%float.

(** [x % y] on integers: the result has the sign of the divisor. *)
Definition mod_ (x y : Z) : result Z :=
  if (y =? 0)%Z then Raise ZeroDivisionError else Ok (x mod y)%Z.

(** One bound of a slice, clipped the way [a[i:j]] clips it. *)
Definition slice_bound (len i : Z) : Z :=
  if (i <? 0)%Z then Z.max (i + len) 0 else Z.min i len.

(** [a[start:stop]]. *)
Definition slice {A : Type} (a : list A) (start stop : Z) : list A :=
  let len := Z.of_nat (length a) in
  let lo := slice_bound len start in
  let hi := slice_bound len stop in
  firstn (Z.to_nat (hi - lo)) (skipn (Z.to_nat lo) a).

End Py.

Module Np.

(** Cast of a boolean array to numbers. *)
Definition astype_int (a : list bool) : list Z := map Z.b2z a.

(** [np.ones(n)]: a negative dimension is refused. *)
Definition ones (n : Z) : result (list Z) :=
  if (n <? 0)%Z then Raise ValueError else Ok (repeat 1%Z (Z.to_nat n)).

Definition sum (l : list Z) : Z := fold_right Z.add 0%Z l.

(** Entry [n] of the full discrete convolution:
    [(a * v)[n] = sum_m a[m] * v[n - m]], entries outside [v] being 0. *)
Definition convolve_at (a v : list Z) (n : nat) : Z :=
  sum (map (fun m => if (m <=? n)%nat
                     then (nth m a 0 * nth (n - m) v 0)%Z
                     else 0%Z)
           (seq 0 (length a))).

(** [np.convolve(a, v)] in its default mode ["full"]: the output has
    [len(a) + len(v) - 1] entries, and an empty operand is refused.
    (NumPy first swaps the operands when [v] is the longer one; the
    convolution is commutative.) *)
Definition convolve (a v : list Z) : result (list Z) :=
  match a, v with
  | [], _ | _, [] => Raise ValueError
  | _, _ => Ok (map (convolve_at a v) (seq 0 (length a + length v - 1)))
  end.

(** [np.pad(a, (0, n))] on a boolean array: [n] times [False] on the
    right; a negative width is refused. *)
Definition pad_right (a : list bool) (n : Z) : result (list bool) :=
  if (n <? 0)%Z then Raise ValueError
  else Ok (a ++ repeat false (Z.to_nat n)).

(** Consecutive rows of [w] entries. [fuel] bounds the number of rows. *)
Fixpoint rows {A : Type} (fuel w : nat) (a : list A) : list (list A) :=
  match fuel, a with
  | O, _ | _, [] => []
  | S fuel', _ => firstn w a :: rows fuel' w (skipn w a)
  end.

(** [a.reshape(-1, w)]: [w] must be a positive divisor of the size
    ([-1] may stand for one dimension only, and other negative dimensions
    are refused; [w = 0] fits no array but the empty one, and then the
    unknown dimension cannot be determined). *)
Definition reshape_rows {A : Type} (a : list A) (w : Z) : result (list (list A)) :=
  if (w <=? 0)%Z then Raise ValueError
  else if (Z.of_nat (length a) mod w =? 0)%Z
       then Ok (rows (length a) (Z.to_nat w) a)
       else Raise ValueError.

(** [row.mean()] of a boolean row: the fraction of [True] entries. *)
Definition mean (row : list bool) : Q :=
  (inject_Z (sum (astype_int row)) / inject_Z (Z.of_nat (length row)))%Q.

(** [np.diff(a)]: first differences. *)
Fixpoint diff (a : list Z) : list Z :=
  match a with
  | x :: (y :: _) as t => (y - x)%Z :: diff t
  | _ => []
  end.

(** Indices of the non-zero entries, counted from [i]. *)
Fixpoint flatnonzero_from (i : Z) (a : list Z) : list Z :=
  match a with
  | [] => []
  | x :: t =>
      if (x =? 0)%Z then flatnonzero_from (i + 1) t
      else i :: flatnonzero_from (i + 1) t
  end.

(** [np.flatnonzero(a)]. *)
Definition flatnonzero (a : list Z) : list Z := flatnonzero_from 0 a.

(** [a.reshape((-1, 2))]: refused when the size is odd. *)
Fixpoint reshape_pairs (a : list Z) : result (list (Z * Z)) :=
  match a with
  | [] => Ok []
  | [_] => Raise ValueError
  | s :: e :: t => ps <- reshape_pairs t ;; Ok ((s, e) :: ps)
  end.

(** An integer kept in the range of [int64], as array arithmetic does. *)
Definition wrap64 (z : Z) : Z := ((z + 2 ^ 63) mod 2 ^ 64 - 2 ^ 63)%Z.

(** An [int64] element cast to [float64]. *)
Definition int64_to_float (z : Z) : float :=
  SF2Prim (binary_normalize prec emax z 0 false).

(** [column * c], [column + c] and [column - c] for one element [x] of a
    column and a Python number [c]: an [int64] column stays [int64] against
    an integer and becomes [float64] against a float. *)
Definition mul_scalar (x c : number) : number :=
  match x, c with
  | Int a, Int b => Int (wrap64 (a * b))
  | Int a, Float g => Float (int64_to_float a * g)
  | Float f, Int b => Float (f * int64_to_float b)
  | Float f, Float g => Float (f * g)
  end.

Definition add_scalar (x c : number) : number :=
  match x, c with
  | Int a, Int b => Int (wrap64 (a + b))
  | Int a, Float g => Float (int64_to_float a + g)
  | Float f, Int b => Float (f + int64_to_float b)
  | Float f, Float g => Float (f + g)
  end.

Definition sub_scalar (x c : number) : number :=
  match x, c with
  | Int a, Int b => Int (wrap64 (a - b))
  | Int a, Float g => Float (int64_to_float a - g)
  | Float f, Int b => Float (f - int64_to_float b)
  | Float f, Float g => Float (f - g)
  end.

End Np.

Module Pd.

(** [frame[name] = frame.apply(f, axis=1)]: the new column holds [f] of
    each row.  On a frame without rows [apply] returns a copy of the frame,
    and a frame of several columns cannot be assigned to one column. *)
Definition assign_apply {A B : Type} (f : A -> B) (frame : list A)
    : result (list (A * B)) :=
  match frame with
  | [] => Raise ValueError
  | _ => Ok (map (fun x => (x, f x)) frame)
  end.

End Pd.

(** ** [fill_gap] *)

Definition fill_gap (a : list bool) (k : Z) : result (list bool) :=
  if (k =? 0)%Z then Ok a
  else
    v <- Np.ones (2 * k + 1) ;;
    c <- Np.convolve (Np.astype_int a) v ;;
    let a := map (fun x => (0 <? x)%Z) c in                        (* dilation *)
    c <- Np.convolve (Np.astype_int a) v ;;
    let a := map (fun x => (x =? Z.of_nat (length v))%Z) c in      (* erosion *)
    Ok (Py.slice a (2 * k) (-2 * k)).

(** ** The audio model, as far as [detect] reads it *)

Record AudioModel : Type := {
  sample_rate : Z;
  hop_length : Z;
  db : list Q
}.

(** ** [VoiceActivityDetector.is_test_noise] *)

Definition default_sample_ratio_thresh : Q := 0.75.
Definition default_db_ratio_thresh : Q := 0.95.

Definition is_test_noise (db_agg : list Q)
    (sample_ratio_thresh db_ratio_thresh : Q) : bool :=
  if (length db_agg <? 4)%nat then false                  (* not enough samples *)
  else
    let sample_count := Z.of_nat (length db_agg) in
    let high_count :=
      Np.sum (Np.astype_int (map (fun x => Qle_bool db_ratio_thresh x) db_agg)) in
    Qle_bool sample_ratio_thresh (inject_Z high_count / inject_Z sample_count).

(** ** [VoiceActivityDetector.detect] *)

(** Line 62: [audio.sample_rate / audio.hop_length * window_sec]. *)
Definition window_product (audio : AudioModel) (window_sec : number)
    : result float :=
  r <- Py.truediv (Int (sample_rate audio)) (Int (hop_length audio)) ;;
  Py.mul_float r window_sec.

(** Lines 61-63: the number of frames in an aggregation window. *)
Definition window_length (audio : AudioModel) (window_sec : number) : result Z :=
  x <- window_product audio window_sec ;;
  Py.int_float x.

Definition assert (b : bool) : result unit :=
  if b then Ok tt else Raise AssertionError.

(** Lines 64-69: ratio of active frames in each window ([db_bin] has the
    length of [audio.db]). *)
Definition aggregate (db_bin : list bool) (window_length : Z) : result (list Q) :=
  m <- Py.mod_ (Z.of_nat (length db_bin)) window_length ;;
  pad_length <- Py.mod_ (window_length - m) window_length ;;
  db_bin <- Np.pad_right db_bin pad_length ;;
  _ <- assert (Z.of_nat (length db_bin) mod window_length =? 0)%Z ;;
  blocks <- Np.reshape_rows db_bin window_length ;;
  Ok (map Np.mean blocks).

(** Line 72: [silence_sec / window_sec / 2]. *)
Definition gap_quotient (silence_sec window_sec : number) : result float :=
  q <- Py.truediv silence_sec window_sec ;;
  Py.truediv (Float q) (Int 2).

(** Line 72, second argument of [fill_gap]. *)
Definition gap_radius (silence_sec window_sec : number) : result Z :=
  h <- gap_quotient silence_sec window_sec ;;
  Py.int_float h.

(** Lines 73-76: indices at which the mask, with a [False] sentinel on
    either side, changes value. *)
Definition transitions (db_agg_bin : list bool) : list Z :=
  let db_agg_bin_ws := [false] ++ db_agg_bin ++ [false] in
  Np.flatnonzero (Np.diff (Np.astype_int db_agg_bin_ws)).

(** Lines 73-78: the interval matrix, one [(start_frame, end_frame)] row
    per run of [True]. *)
Definition extract_intervals (db_agg_bin : list bool) : result (list (Z * Z)) :=
  Np.reshape_pairs (transitions db_agg_bin).

(** Lines 60-69. *)
Definition detect_ratio (audio : AudioModel) (db_thresh : Q)
    (window_sec : number) : result (list Q) :=
  let db_bin := map (fun x => Qle_bool db_thresh x) (db audio) in
  wl <- window_length audio window_sec ;;
  aggregate db_bin wl.

(** Lines 71-78. *)
Definition detect_intervals (db_agg : list Q) (agg_thresh : Q)
    (window_sec silence_sec : number) : result (list (Z * Z)) :=
  let db_agg_bin := map (fun x => Qle_bool agg_thresh x) db_agg in
  k <- gap_radius silence_sec window_sec ;;
  db_agg_bin <- fill_gap db_agg_bin k ;;
  extract_intervals db_agg_bin.

(** A row of the frame after line 84. *)
Record row : Type := {
  start_frame : Z;
  end_frame : Z;
  noise : bool
}.

Definition detect (audio : AudioModel) (db_thresh agg_thresh : Q)
    (window_sec silence_sec buffer_sec : number)
    : result (list (number * number)) :=
  db_agg <- detect_ratio audio db_thresh window_sec ;;
  interval_mat <- detect_intervals db_agg agg_thresh window_sec silence_sec ;;
  out_df <-
    Pd.assign_apply
      (fun x => is_test_noise (Py.slice db_agg (fst x) (snd x))
                  default_sample_ratio_thresh default_db_ratio_thresh)
      interval_mat ;;
  let out_df :=
    map (fun x => {| start_frame := fst (fst x); end_frame := snd (fst x);
                     noise := snd x |}) out_df in
  let out_df := filter (fun x => negb (noise x)) out_df in
  Ok (map (fun x =>
             (Np.sub_scalar (Np.mul_scalar (Int (start_frame x)) window_sec) buffer_sec,
              Np.add_scalar (Np.mul_scalar (Int (end_frame x)) window_sec) buffer_sec))
          out_df).

(** The default arguments of [detect]. *)
Definition default_db_thresh : Q := -25.
Definition default_agg_thresh : Q := 0.02.
Definition default_window_sec : number := Int 5.
Definition default_silence_sec : number := Int 30.
Definition default_buffer_sec : number := Int 1.

(** [VoiceActivityDetector().detect(audio)], as [VADJob] calls it. *)
Definition detect_default (audio : AudioModel)
    : result (list (number * number)) :=
  detect audio default_db_thresh default_agg_thresh default_window_sec
         default_silence_sec default_buffer_sec.

(** [n] seconds of frames at loudness [level], at 50 frames per second. *)
Definition seconds (n : nat) (level : Q) : list Q := repeat level (50 * n).

Definition recording (trace : list Q) : AudioModel :=
  {| sample_rate := 8000; hop_length := 160; db := trace |}.

(** ** [VADJob] *)

(** [str(i)] on a non-negative integer: its decimal digits. *)
Definition str (i : nat) : String.string :=
  DecimalString.NilZero.string_of_uint (Nat.to_uint i).

(** Lines 114-116 of [VADJob.__init__]: the frame handed to [to_csv], with
    the columns [id], [start_sec], [end_sec].  Loading the audio file
    (line 113) and writing the table (line 117) are input and output and
    are left out: the audio model is taken as given. *)
Definition VADJob_frame (audio : AudioModel)
    : result (list (String.string * number * number)) :=
  vad_df <- detect_default audio ;;
  let ids := map str (seq 1 (length vad_df)) in
  Ok (map (fun x => (fst x, fst (snd x), snd (snd x))) (combine ids vad_df)).

(** Reading a decimal numeral back, as [int(s)] does on digits. *)
Definition int_of_str (s : String.string) : option nat :=
  option_map Nat.of_uint (DecimalString.NilZero.uint_of_string s).

(** ** Vocabulary of the statements *)

(** Number of indices of [l] at which [h] holds. *)
Definition tally (h : nat -> bool) (l : list nat) : Z :=
  Np.sum (map (fun m => Z.b2z (h m)) l).

(** Position [j] of the dilated mask, in the coordinates of the full
    convolution: some entry of [a] among the [2K+1] ending at [j] is set. *)
Definition dilated (a : list bool) (K j : nat) : Prop :=
  exists m, m < length a /\ m <= j <= m + 2 * K /\ nth m a false = true.

(** Index [j] lies in one of the half-open intervals [[start, end)]. *)
Definition covered (ivs : list (Z * Z)) (j : Z) : bool :=
  existsb (fun iv => (fst iv <=? j)%Z && (j <? snd iv)%Z) ivs.

Definition mask_of_intervals (n : nat) (ivs : list (Z * Z)) : list bool :=
  map (fun i => covered ivs (Z.of_nat i)) (seq 0 n).

Fixpoint runs (lo hi : Z) (ivs : list (Z * Z)) : Prop :=
  match ivs with
  | [] => True
  | (s, e) :: t => (lo <= s /\ s < e /\ e <= hi)%Z /\ runs (e + 1) hi t
  end.

Definition scan (p : bool) (i : Z) (m : list bool) : list Z :=
  Np.flatnonzero_from i (Np.diff (Z.b2z p :: Np.astype_int m ++ [0%Z])).


(** [w] is [x] truncated toward zero. *)
Definition truncation_of (x : Q) (w : Z) : Prop :=
  ((0 <= x -> inject_Z w <= x /\ x < inject_Z (w + 1)) /\
   (x <= 0 -> inject_Z (w - 1) < x /\ x <= inject_Z w))%Q.

(** The specification's [round]: the nearest integer, a tie going to the
    even neighbour, as Python's built-in does. *)
Definition spec_round (x : Q) : Z :=
  let f := Qfloor x in
  match (x - inject_Z f ?= 1 # 2)%Q with
  | Lt => f
  | Gt => (f + 1)%Z
  | Eq => if Z.even f then f else (f + 1)%Z
  end.

(** [y] is zero as a float: the integer 0, or [0.0] or [-0.0]. *)
Definition zero_number (y : number) : Prop :=
  exists f, Py.to_float y = Ok f /\ is_zero f = true.

(** The mask of [aggregate] after line 65. *)
Definition padded (db_bin : list bool) (w : Z) : list bool :=
  db_bin ++ repeat false (Z.to_nat ((w - Z.of_nat (length db_bin) mod w) mod w)).

(** * Properties *)

(** ** Sums of indicators *)

Section Indicators.

Variable h : nat -> bool.

Lemma tally_app l1 l2 : tally h (l1 ++ l2) = (tally h l1 + tally h l2)%Z.
Proof.
  unfold tally. induction l1 as [|x l1 IH]; simpl; [reflexivity|].
  unfold Np.sum in *. simpl. rewrite IH. lia.
Qed.

Lemma tally_bounds l : (0 <= tally h l <= Z.of_nat (length l))%Z.
Proof.
  unfold tally, Np.sum. induction l as [|x l IH]; simpl length; simpl map; simpl fold_right.
  - lia.
  - destruct (h x); simpl Z.b2z; lia.
Qed.

Lemma tally_pos l : (0 < tally h l)%Z <-> exists m, In m l /\ h m = true.
Proof.
  induction l as [|x l IH].
  - unfold tally, Np.sum; simpl. split; [lia | intros (m & [] & _)].
  - change (x :: l) with ([x] ++ l). rewrite tally_app.
    pose proof (tally_bounds l) as Hb.
    assert (Hx : tally h [x] = Z.b2z (h x)) by (unfold tally, Np.sum; simpl; lia).
    rewrite Hx. split.
    + intros Hpos. destruct (h x) eqn:E.
      * exists x. split; [now left | assumption].
      * unfold Z.b2z in Hpos. rewrite Z.add_0_l in Hpos.
        apply IH in Hpos as (m & Hin & Hm).
        exists m. split; [now right | assumption].
    + intros (m & [-> | Hin] & Hm).
      * rewrite Hm. unfold Z.b2z. lia.
      * assert (0 < tally h l)%Z by (apply IH; eauto).
        destruct (h x); unfold Z.b2z; lia.
Qed.

Lemma tally_zero l : (forall m, In m l -> h m = false) -> tally h l = 0%Z.
Proof.
  intros Hall. pose proof (tally_bounds l) as Hb.
  destruct (Z.eq_dec (tally h l) 0) as [|Hne]; [assumption|].
  assert (Hpos : (0 < tally h l)%Z) by lia.
  apply tally_pos in Hpos as (m & Hin & Hm).
  rewrite (Hall m Hin) in Hm. discriminate.
Qed.

Lemma tally_full l :
  tally h l = Z.of_nat (length l) <-> forall m, In m l -> h m = true.
Proof.
  induction l as [|x l IH].
  - unfold tally, Np.sum; simpl. split; [intros _ m [] | reflexivity].
  - change (x :: l) with ([x] ++ l). rewrite tally_app.
    pose proof (tally_bounds l) as Hb.
    assert (Hx : tally h [x] = Z.b2z (h x)) by (unfold tally, Np.sum; simpl; lia).
    rewrite Hx. simpl length. split.
    + intros Hsum m [<- | Hin].
      * destruct (h x); [reflexivity | unfold Z.b2z in Hsum; lia].
      * apply IH; [|assumption]. destruct (h x); unfold Z.b2z in Hsum; lia.
    + intros Hall. rewrite (Hall x (or_introl eq_refl)).
      assert (tally h l = Z.of_nat (length l)) by (apply IH; intros; apply Hall; now right).
      unfold Z.b2z. lia.
Qed.

End Indicators.

Lemma tally_ext (f g : nat -> bool) l :
  (forall m, In m l -> f m = g m) -> tally f l = tally g l.
Proof.
  unfold tally, Np.sum. induction l as [|x l IH]; intros Hfg; simpl; [reflexivity|].
  rewrite (Hfg x (or_introl eq_refl)), IH; [reflexivity|].
  intros; apply Hfg; now right.
Qed.

(** ** Convolution with a window of ones *)

Lemma nth_ones (W i : nat) :
  nth i (repeat 1%Z W) 0%Z = if (i <? W)%nat then 1%Z else 0%Z.
Proof.
  revert i. induction W as [|W IH]; intros [|i]; simpl; try reflexivity.
  rewrite IH. reflexivity.
Qed.

Lemma nth_astype_int (b : list bool) (m : nat) :
  nth m (Np.astype_int b) 0%Z = Z.b2z (nth m b false).
Proof. unfold Np.astype_int. apply (map_nth Z.b2z b false m). Qed.

Lemma length_astype_int (b : list bool) :
  length (Np.astype_int b) = length b.
Proof. unfold Np.astype_int. apply length_map. Qed.

Lemma convolve_at_ones (b : list bool) (W n : nat) :
  Np.convolve_at (Np.astype_int b) (repeat 1%Z W) n =
  tally (fun m => (m <=? n)%nat && (n - m <? W)%nat && nth m b false)
        (seq 0 (length b)).
Proof.
  unfold Np.convolve_at, tally. rewrite length_astype_int.
  f_equal. apply map_ext. intros m.
  rewrite nth_astype_int, nth_ones.
  destruct (m <=? n)%nat, (n - m <? W)%nat, (nth m b false); reflexivity.
Qed.

Lemma convolve_ok (a v : list Z) :
  a <> [] -> v <> [] ->
  Np.convolve a v = Ok (map (Np.convolve_at a v) (seq 0 (length a + length v - 1))).
Proof.
  intros Ha Hv. destruct a as [|x a]; [contradiction|].
  destruct v as [|y v]; [contradiction|]. reflexivity.
Qed.

Lemma dilation_at (b : list bool) (W j : nat) :
  (0 <? Np.convolve_at (Np.astype_int b) (repeat 1%Z W) j)%Z = true <->
  exists m, m < length b /\ m <= j /\ j - m < W /\ nth m b false = true.
Proof.
  rewrite Z.ltb_lt, convolve_at_ones, tally_pos. split.
  - intros (m & Hin & Hm). apply in_seq in Hin.
    apply andb_true_iff in Hm as [Hm Hb]. apply andb_true_iff in Hm as [Hle Hlt].
    apply Nat.leb_le in Hle. apply Nat.ltb_lt in Hlt.
    exists m. repeat split; try assumption; lia.
  - intros (m & Hlen & Hle & Hlt & Hb). exists m. split.
    + apply in_seq. lia.
    + rewrite Hb, andb_true_r. apply andb_true_iff. split.
      * now apply Nat.leb_le.
      * now apply Nat.ltb_lt.
Qed.

Lemma erosion_at (d : list bool) (W t : nat) :
  1 <= W -> t + W <= length d ->
  (Np.convolve_at (Np.astype_int d) (repeat 1%Z W) (t + W - 1) =? Z.of_nat W)%Z = true <->
  forall m, t <= m < t + W -> nth m d false = true.
Proof.
  intros HW Hlen. rewrite Z.eqb_eq, convolve_at_ones.
  set (h := fun m => ((m <=? t + W - 1)%nat && (t + W - 1 - m <? W)%nat && nth m d false)).
  assert (Hsplit : seq 0 (length d) =
                   seq 0 t ++ seq t W ++ seq (t + W) (length d - (t + W))).
  { rewrite <- seq_app. replace (0 + t) with t by lia. rewrite <- seq_app.
    f_equal. lia. }
  rewrite Hsplit, !tally_app.
  rewrite (tally_zero h (seq 0 t)), (tally_zero h (seq (t + W) (length d - (t + W)))).
  - rewrite (tally_ext h (fun m => nth m d false) (seq t W)).
    + rewrite Z.add_0_l, Z.add_0_r.
      rewrite <- (length_seq W t) at 2. rewrite tally_full.
      split; intros H m Hm; apply H.
      * apply in_seq. lia.
      * apply in_seq in Hm. lia.
    + intros m Hm. apply in_seq in Hm. unfold h.
      replace (m <=? t + W - 1)%nat with true by (symmetry; apply Nat.leb_le; lia).
      replace (t + W - 1 - m <? W)%nat with true by (symmetry; apply Nat.ltb_lt; lia).
      reflexivity.
  - intros m Hm. apply in_seq in Hm. unfold h.
    replace (m <=? t + W - 1)%nat with false by (symmetry; apply Nat.leb_gt; lia).
    reflexivity.
  - intros m Hm. apply in_seq in Hm. unfold h.
    replace (t + W - 1 - m <? W)%nat with false by (symmetry; apply Nat.ltb_ge; lia).
    rewrite andb_false_r. reflexivity.
Qed.

(** ** Slices *)

Lemma nth_map_seq {A : Type} (f : nat -> A) (len i : nat) (d : A) :
  i < len -> nth i (map f (seq 0 len)) d = f i.
Proof.
  intros Hi. rewrite (nth_indep _ d (f 0)) by (rewrite length_map, length_seq; exact Hi).
  rewrite map_nth, seq_nth by exact Hi. reflexivity.
Qed.

Lemma nth_firstn_skipn {A : Type} (l : list A) (c n t : nat) (d : A) :
  t < n -> nth t (firstn n (skipn c l)) d = nth (c + t) l d.
Proof.
  intros Ht. rewrite nth_firstn.
  replace (t <? n) with true by (symmetry; apply Nat.ltb_lt; exact Ht).
  rewrite nth_skipn. reflexivity.
Qed.

Lemma slice_trim {A : Type} (e : list A) (c : Z) (n : nat) :
  (0 < c)%Z -> Z.of_nat (length e) = (Z.of_nat n + 2 * c)%Z ->
  Py.slice e c (- c) = firstn n (skipn (Z.to_nat c) e).
Proof.
  intros Hc Hlen. unfold Py.slice, Py.slice_bound.
  replace (c <? 0)%Z with false by (symmetry; apply Z.ltb_ge; lia).
  replace (- c <? 0)%Z with true by (symmetry; apply Z.ltb_lt; lia).
  rewrite Hlen.
  replace (Z.min c (Z.of_nat n + 2 * c)) with c by lia.
  replace (Z.max (- c + (Z.of_nat n + 2 * c)) 0 - c)%Z with (Z.of_nat n) by lia.
  rewrite Nat2Z.id. reflexivity.
Qed.

(** ** [fill_gap] is the morphological closing with radius [k] *)

Section Closing.

Variable a : list bool.
Variable k : Z.
Hypothesis k_pos : (1 <= k)%Z.
Hypothesis a_nonempty : a <> [].

Let K : nat := Z.to_nat k.

Lemma fill_gap_closing :
  exists r, fill_gap a k = Ok r /\ length r = length a /\
    forall t, t < length a ->
      (nth t r false = true <-> forall j, t <= j <= t + 2 * K -> dilated a K j).
Proof.
  assert (Hn : 1 <= length a) by (destruct a; [contradiction | simpl; lia]).
  unfold fill_gap.
  replace (k =? 0)%Z with false by (symmetry; apply Z.eqb_neq; lia).
  unfold Np.ones.
  replace (2 * k + 1 <? 0)%Z with false by (symmetry; apply Z.ltb_ge; lia).
  replace (Z.to_nat (2 * k + 1)) with (S (2 * K)) by (unfold K; lia).
  cbn [bind].
  set (v := repeat 1%Z (S (2 * K))).
  assert (Hv : v <> []) by discriminate.
  assert (Hlv : length v = S (2 * K)) by apply repeat_length.
  rewrite convolve_ok; [cbn [bind] | | exact Hv].
  2:{ intros E. apply (f_equal (@length Z)) in E.
      rewrite length_astype_int in E. simpl in E. lia. }
  rewrite length_astype_int, Hlv.
  set (d := map (fun x => (0 <? x)%Z) _).
  assert (Hld : length d = length a + 2 * K).
  { unfold d. rewrite !length_map, length_seq. lia. }
  rewrite convolve_ok; [cbn [bind] | | exact Hv].
  2:{ intros E. apply (f_equal (@length Z)) in E.
      rewrite length_astype_int, Hld in E. simpl in E. lia. }
  rewrite length_astype_int, Hlv, Hld.
  set (e := map (fun x => (x =? Z.of_nat (S (2 * K)))%Z) _).
  assert (Hle : length e = length a + 2 * K + 2 * K).
  { unfold e. rewrite !length_map, length_seq. lia. }
  replace (-2 * k)%Z with (- (2 * k))%Z by lia.
  rewrite (@slice_trim _ e (2 * k)%Z (length a)) by lia.
  replace (Z.to_nat (2 * k)) with (2 * K) by (unfold K; lia).
  eexists. split; [reflexivity|]. split.
  { rewrite length_firstn, length_skipn. lia. }
  intros t Ht. rewrite nth_firstn_skipn by exact Ht.
  unfold e. rewrite map_map, nth_map_seq by lia.
  replace (2 * K + t) with (t + S (2 * K) - 1) by lia.
  unfold v. rewrite erosion_at by lia.
  split.
  - intros H j Hj. specialize (H j ltac:(lia)).
    unfold d in H. rewrite map_map, nth_map_seq in H by lia.
    apply dilation_at in H as (m & Hm & Hmj & Hjm & Hb).
    exists m. repeat split; try assumption; lia.
  - intros H m Hm. destruct (H m ltac:(lia)) as (i & Hi & Hij & Hb).
    unfold d. rewrite map_map, nth_map_seq by lia.
    apply dilation_at. exists i. repeat split; try assumption; lia.
Qed.

End Closing.

Lemma fill_gap_zero (a : list bool) : fill_gap a 0 = Ok a.
Proof. reflexivity. Qed.

Lemma fill_gap_negative (a : list bool) (k : Z) :
  (k < 0)%Z -> fill_gap a k = Raise ValueError.
Proof.
  intros Hk. unfold fill_gap, Np.ones.
  replace (k =? 0)%Z with false by (symmetry; apply Z.eqb_neq; lia).
  replace (2 * k + 1 <? 0)%Z with true by (symmetry; apply Z.ltb_lt; lia).
  reflexivity.
Qed.

Lemma fill_gap_empty (k : Z) :
  (1 <= k)%Z -> fill_gap [] k = Raise ValueError.
Proof.
  intros Hk. unfold fill_gap, Np.ones.
  replace (k =? 0)%Z with false by (symmetry; apply Z.eqb_neq; lia).
  replace (2 * k + 1 <? 0)%Z with false by (symmetry; apply Z.ltb_ge; lia).
  reflexivity.
Qed.

(** Whenever [fill_gap] returns, it returns a mask of the length it was
    given. *)
Lemma fill_gap_length (a r : list bool) (k : Z) :
  fill_gap a k = Ok r -> length r = length a.
Proof.
  intros H.
  destruct (Z.lt_trichotomy k 0) as [Hk | [-> | Hk]].
  - rewrite fill_gap_negative in H by exact Hk. discriminate.
  - rewrite fill_gap_zero in H. now inversion H.
  - destruct a as [|x a].
    + rewrite fill_gap_empty in H by lia. discriminate.
    + destruct (@fill_gap_closing (x :: a) k) as (r' & Hr' & Hlen & _);
        [lia | discriminate |].
      rewrite Hr' in H. inversion H; subst. exact Hlen.
Qed.

(** The closing never clears an entry. *)
Lemma fill_gap_extensive (a r : list bool) (k : Z) (t : nat) :
  fill_gap a k = Ok r -> nth t a false = true -> nth t r false = true.
Proof.
  intros H Ht.
  assert (Hlt : t < length a).
  { destruct (Nat.lt_ge_cases t (length a)) as [|Hge]; [assumption|].
    rewrite nth_overflow in Ht by exact Hge. discriminate. }
  destruct (Z.lt_trichotomy k 0) as [Hk | [-> | Hk]].
  - rewrite fill_gap_negative in H by exact Hk. discriminate.
  - rewrite fill_gap_zero in H. inversion H; subst. exact Ht.
  - destruct (@fill_gap_closing a k) as (r' & Hr' & _ & Hspec).
    + lia.
    + intros ->. simpl in Hlt. lia.
    + rewrite Hr' in H. inversion H; subst r'.
      apply Hspec; [exact Hlt|]. intros j Hj.
      exists t. repeat split; try assumption; lia.
Qed.

(** Two set entries at most [2k] cleared entries apart are joined. *)
Lemma fill_gap_joins (a r : list bool) (k : Z) (p q t : nat) :
  (1 <= k)%Z -> fill_gap a k = Ok r ->
  nth p a false = true -> nth q a false = true ->
  (Z.of_nat q <= Z.of_nat p + 2 * k + 1)%Z ->
  p <= t <= q -> nth t r false = true.
Proof.
  intros Hk H Hp Hq Hgap Ht.
  assert (Hlp : p < length a).
  { destruct (Nat.lt_ge_cases p (length a)) as [|Hge]; [assumption|].
    rewrite nth_overflow in Hp by exact Hge. discriminate. }
  assert (Hlq : q < length a).
  { destruct (Nat.lt_ge_cases q (length a)) as [|Hge]; [assumption|].
    rewrite nth_overflow in Hq by exact Hge. discriminate. }
  destruct (@fill_gap_closing a k) as (r' & Hr' & _ & Hspec).
  - exact Hk.
  - intros ->. simpl in Hlp. lia.
  - rewrite Hr' in H. inversion H; subst r'.
    apply Hspec; [lia|]. intros j Hj.
    destruct (Nat.le_gt_cases j (p + 2 * Z.to_nat k)) as [Hjp | Hjp].
    + exists p. repeat split; try assumption; lia.
    + exists q. repeat split; try assumption; lia.
Qed.

(** A window of [2k+1] cleared entries stays cleared. *)
Lemma fill_gap_keeps_wide_gap (a r : list bool) (k : Z) (u t : nat) :
  (0 <= k)%Z -> fill_gap a k = Ok r ->
  (forall m, u <= m <= u + 2 * Z.to_nat k -> nth m a false = false) ->
  u <= t <= u + 2 * Z.to_nat k ->
  nth t r false = false.
Proof.
  intros Hk H Hwin Ht.
  destruct (Z.eq_dec k 0) as [-> | Hk0].
  - rewrite fill_gap_zero in H. inversion H; subst. apply Hwin. exact Ht.
  - destruct (Nat.lt_ge_cases t (length r)) as [Hlt | Hge];
      [| now apply nth_overflow].
    pose proof (fill_gap_length _ _ H) as Hlen.
    destruct (@fill_gap_closing a k) as (r' & Hr' & _ & Hspec).
    + lia.
    + intros ->. simpl in Hlen. lia.
    + rewrite Hr' in H. inversion H; subst r'.
      destruct (nth t r false) eqn:E; [|reflexivity].
      assert (Hta : t < length a) by lia.
      pose proof (proj1 (Hspec t Hta) E) as D.
      destruct (D (u + 2 * Z.to_nat k)) as (m & _ & Hm & Hb); [lia|].
      rewrite Hwin in Hb by lia. discriminate.
Qed.

(** ** Masks of the shape [T]*3 + [F]*g + [T]*3 inside a context *)

Lemma nth_run_gap_run (pre post : list bool) (g i : nat) :
  nth (length pre + i)
      (pre ++ repeat true 3 ++ repeat false g ++ repeat true 3 ++ post) false =
  if i <? 3 then true
  else if i <? 3 + g then false
  else if i <? 3 + g + 3 then true
  else nth (i - (3 + g + 3)) post false.
Proof.
  rewrite app_nth2_plus.
  destruct (i <? 3) eqn:E1.
  { apply Nat.ltb_lt in E1. rewrite app_nth1 by (rewrite repeat_length; exact E1).
    apply nth_repeat_lt. exact E1. }
  apply Nat.ltb_ge in E1.
  rewrite app_nth2 by (rewrite repeat_length; exact E1). rewrite repeat_length.
  destruct (i <? 3 + g) eqn:E2.
  { apply Nat.ltb_lt in E2. rewrite app_nth1 by (rewrite repeat_length; lia).
    apply nth_repeat_lt. lia. }
  apply Nat.ltb_ge in E2.
  rewrite app_nth2 by (rewrite repeat_length; lia). rewrite repeat_length.
  destruct (i <? 3 + g + 3) eqn:E3.
  { apply Nat.ltb_lt in E3. rewrite app_nth1 by (rewrite repeat_length; lia).
    apply nth_repeat_lt. lia. }
  apply Nat.ltb_ge in E3.
  rewrite app_nth2 by (rewrite repeat_length; lia). rewrite repeat_length.
  f_equal. lia.
Qed.

(** C8. Length preservation: for every [k >= 0] and every mask longer than
    [4k], [fill_gap mask k] returns, and returns a mask of the length of
    its input. *)
Theorem fill_gap_preserves_length (mask : list bool) (k : Z) :
  (0 <= k)%Z -> (4 * k < Z.of_nat (length mask))%Z ->
  exists r, fill_gap mask k = Ok r /\ length r = length mask.
Proof.
  intros Hk Hlen.
  destruct (Z.eq_dec k 0) as [-> | Hk0].
  - exists mask. split; reflexivity.
  - destruct (@fill_gap_closing mask k) as (r & Hr & Hl & _).
    + lia.
    + intros ->. cbn [length] in Hlen. lia.
    + exists r. split; assumption.
Qed.

Lemma fill_gap_preserves_length_witness :
  exists r, fill_gap [true; false; false; false; true] 1 = Ok r /\ length r = 5.
Proof.
  apply (@fill_gap_preserves_length [true; false; false; false; true] 1).
  - lia.
  - simpl. lia.
Defined.

(** C5. Gap bridging: for every [k >= 1], on a mask made of three set
    entries, [g] cleared entries and three set entries, in any surrounding
    context, [fill_gap] returns a mask of the same length in which the six
    set entries are still set; if [g <= 2k] every entry of the whole region
    is set (one unbroken run), and if [g > 2k] every entry of the gap is
    still cleared. *)
Theorem fill_gap_bridges_gap (k : Z) (g : nat) (pre post : list bool) :
  (1 <= k)%Z ->
  let mask := pre ++ repeat true 3 ++ repeat false g ++ repeat true 3 ++ post in
  let first := length pre in
  exists r, fill_gap mask k = Ok r /\ length r = length mask /\
    (forall t, first <= t < first + 3 \/ first + 3 + g <= t < first + 3 + g + 3 ->
               nth t r false = true) /\
    ((Z.of_nat g <= 2 * k)%Z ->
       forall t, first <= t < first + 3 + g + 3 -> nth t r false = true) /\
    ((2 * k < Z.of_nat g)%Z ->
       forall t, first + 3 <= t < first + 3 + g -> nth t r false = false).
Proof.
  intros Hk mask first.
  assert (Hshape : forall i, nth (first + i) mask false =
                     if i <? 3 then true else if i <? 3 + g then false
                     else if i <? 3 + g + 3 then true
                     else nth (i - (3 + g + 3)) post false)
    by (intros i; apply nth_run_gap_run).
  assert (Hset : forall t, first <= t < first + 3 \/
                           first + 3 + g <= t < first + 3 + g + 3 ->
                           nth t mask false = true).
  { intros t Ht. replace t with (first + (t - first)) by lia. rewrite Hshape.
    destruct (t - first <? 3) eqn:E1; [reflexivity|]. apply Nat.ltb_ge in E1.
    destruct (t - first <? 3 + g) eqn:E2; [apply Nat.ltb_lt in E2; lia|].
    apply Nat.ltb_ge in E2.
    destruct (t - first <? 3 + g + 3) eqn:E3; [reflexivity|].
    apply Nat.ltb_ge in E3. lia. }
  assert (Hclear : forall t, first + 3 <= t < first + 3 + g ->
                             nth t mask false = false).
  { intros t Ht. replace t with (first + (t - first)) by lia. rewrite Hshape.
    destruct (t - first <? 3) eqn:E1; [apply Nat.ltb_lt in E1; lia|].
    destruct (t - first <? 3 + g) eqn:E2; [reflexivity|].
    apply Nat.ltb_ge in E2. lia. }
  destruct (@fill_gap_closing mask k) as (r & Hr & Hlen & _).
  { exact Hk. }
  { intros E. apply (f_equal (@length bool)) in E. unfold mask in E.
    rewrite !length_app, !repeat_length in E. simpl in E. lia. }
  exists r. split; [exact Hr|]. split; [exact Hlen|].
  assert (Hkeep : forall t, first <= t < first + 3 \/
                            first + 3 + g <= t < first + 3 + g + 3 ->
                            nth t r false = true).
  { intros t Ht. apply (fill_gap_extensive _ _ _ Hr). apply Hset. exact Ht. }
  split; [exact Hkeep|]. split.
  - intros Hg t Ht.
    destruct (Nat.lt_ge_cases t (first + 3)) as [H1 | H1];
      [apply Hkeep; lia|].
    destruct (Nat.le_gt_cases (first + 3 + g) t) as [H2 | H2];
      [apply Hkeep; lia|].
    apply (@fill_gap_joins mask r k (first + 2) (first + 3 + g) t);
      try assumption; try lia; apply Hset; lia.
  - intros Hg t Ht.
    set (u := Nat.min t (first + 3 + g - 1 - 2 * Z.to_nat k)).
    apply (@fill_gap_keeps_wide_gap mask r k u t); try assumption; try lia.
    intros m Hm. apply Hclear. lia.
Qed.

(** ** Interval extraction *)

Lemma scan_nil (p : bool) (i : Z) : scan p i [] = if p then [i] else [].
Proof. destruct p; reflexivity. Qed.

Lemma scan_cons (p x : bool) (i : Z) (m : list bool) :
  scan p i (x :: m) =
  if eqb p x then scan x (i + 1) m else i :: scan x (i + 1) m.
Proof. destruct p, x; reflexivity. Qed.

Lemma transitions_scan (m : list bool) : transitions m = scan false 0 m.
Proof.
  unfold transitions, scan, Np.flatnonzero, Np.astype_int.
  simpl. rewrite map_app. reflexivity.
Qed.

Lemma runs_weaken (lo lo' hi hi' : Z) (ivs : list (Z * Z)) :
  (lo' <= lo)%Z -> (hi <= hi')%Z -> runs lo hi ivs -> runs lo' hi' ivs.
Proof.
  revert lo lo'. induction ivs as [|[s e] t IH]; intros lo lo' Hlo Hhi H; simpl in *.
  - exact I.
  - destruct H as [(H1 & H2 & H3) H4]. split; [lia|].
    apply (IH (e + 1)%Z); [lia | exact Hhi | exact H4].
Qed.

Lemma covered_below (lo hi j : Z) (ivs : list (Z * Z)) :
  runs lo hi ivs -> (j < lo)%Z -> covered ivs j = false.
Proof.
  revert lo. induction ivs as [|[s e] t IH]; intros lo H Hj; simpl in *.
  - reflexivity.
  - destruct H as [(H1 & H2 & H3) H4].
    replace (s <=? j)%Z with false by (symmetry; apply Z.leb_gt; lia).
    simpl. apply (IH (e + 1)%Z); [exact H4 | lia].
Qed.

(** The scan of a mask [m] that starts at index [i], the entry before it
    being [p]: when [p] is set the first transition [e] closes the run that
    is open, and the remaining transitions pair up into runs. *)
Lemma scan_spec (m : list bool) :
  forall (p : bool) (i : Z),
  exists (e : Z) (rest : list Z) (ivs : list (Z * Z)),
    scan p i m = (if p then e :: rest else rest) /\
    (if p then i <= e <= i + Z.of_nat (length m) else e = i - 1)%Z /\
    Np.reshape_pairs rest = Ok ivs /\
    runs (e + 1) (i + Z.of_nat (length m)) ivs /\
    forall j, (i <= j < i + Z.of_nat (length m))%Z ->
      nth (Z.to_nat (j - i)) m false = (j <? e)%Z || covered ivs j.
Proof.
  induction m as [|x m IH]; intros p i.
  - rewrite scan_nil. destruct p.
    + exists i, [], []. simpl length.
      split; [reflexivity|]. split; [lia|]. split; [reflexivity|].
      split; [exact I|]. intros j Hj. lia.
    + exists (i - 1)%Z, [], []. simpl length.
      split; [reflexivity|]. split; [lia|]. split; [reflexivity|].
      split; [exact I|]. intros j Hj. lia.
  - rewrite scan_cons.
    destruct (IH x (i + 1)%Z) as (e & rest & ivs & Hscan & He & Hpairs & Hruns & Hcov).
    assert (Hlen : (i + 1 + Z.of_nat (length m) = i + Z.of_nat (length (x :: m)))%Z)
      by (simpl length; lia).
    rewrite Hlen in *.
    assert (Htail : forall j, (i < j < i + Z.of_nat (length (x :: m)))%Z ->
              nth (Z.to_nat (j - i)) (x :: m) false = (j <? e)%Z || covered ivs j).
    { intros j Hj. rewrite <- Hcov by lia.
      replace (Z.to_nat (j - i)) with (S (Z.to_nat (j - (i + 1)))) by lia.
      reflexivity. }
    destruct p, x; simpl eqb; cbv iota; rewrite Hscan.
    + (* inside a run, which goes on *)
      exists e, rest, ivs. repeat split; try assumption; try lia.
      intros j Hj. destruct (Z.eq_dec j i) as [-> | Hne]; [|apply Htail; lia].
      rewrite Z.sub_diag. simpl nth.
      replace (i <? e)%Z with true by (symmetry; apply Z.ltb_lt; lia). reflexivity.
    + (* the run ends at [i] *)
      subst e. exists i, rest, ivs. repeat split; try assumption; try lia.
      * replace (i + 1 - 1 + 1)%Z with (i + 1)%Z in Hruns by lia. exact Hruns.
      * intros j Hj. destruct (Z.eq_dec j i) as [-> | Hne].
        -- rewrite Z.sub_diag, Z.ltb_irrefl. simpl nth. simpl orb.
           symmetry. eapply covered_below; [exact Hruns | lia].
        -- rewrite Htail by lia.
           replace (j <? i + 1 - 1)%Z with false by (symmetry; apply Z.ltb_ge; lia).
           replace (j <? i)%Z with false by (symmetry; apply Z.ltb_ge; lia).
           reflexivity.
    + (* a run starts at [i] *)
      exists (i - 1)%Z, (i :: e :: rest), ((i, e) :: ivs).
      split; [reflexivity|]. split; [reflexivity|].
      split; [simpl; rewrite Hpairs; reflexivity|].
      split; [simpl; split; [lia | exact Hruns]|].
      intros j Hj.
      replace (j <? i - 1)%Z with false by (symmetry; apply Z.ltb_ge; lia).
      simpl orb. simpl covered.
      replace (i <=? j)%Z with true by (symmetry; apply Z.leb_le; lia).
      simpl andb.
      destruct (Z.eq_dec j i) as [-> | Hne]; [|apply Htail; lia].
      rewrite Z.sub_diag. simpl nth.
      replace (i <? e)%Z with true by (symmetry; apply Z.ltb_lt; lia). reflexivity.
    + (* outside a run, still outside *)
      subst e. exists (i - 1)%Z, rest, ivs.
      split; [reflexivity|]. split; [reflexivity|]. split; [assumption|].
      split.
      * apply (runs_weaken (lo := (i + 1 - 1 + 1)%Z) (hi := (i + Z.of_nat (length (false :: m)))%Z));
          [lia | lia | exact Hruns].
      * intros j Hj.
        replace (j <? i - 1)%Z with false by (symmetry; apply Z.ltb_ge; lia).
        simpl orb. destruct (Z.eq_dec j i) as [-> | Hne].
        -- rewrite Z.sub_diag. simpl nth. symmetry.
           eapply covered_below; [exact Hruns | lia].
        -- rewrite Htail by lia.
           replace (j <? i + 1 - 1)%Z with false by (symmetry; apply Z.ltb_ge; lia).
           reflexivity.
Qed.

Lemma reshape_pairs_length (ts : list Z) (ivs : list (Z * Z)) :
  Np.reshape_pairs ts = Ok ivs -> length ts = 2 * length ivs.
Proof.
  assert (Hgen : forall n ts ivs, length ts <= n ->
            Np.reshape_pairs ts = Ok ivs -> length ts = 2 * length ivs).
  { clear ts ivs. induction n as [|n IH]; intros ts ivs Hn H.
    - destruct ts; [|simpl in Hn; lia]. inversion H. reflexivity.
    - destruct ts as [|s [|e t]]; simpl in H.
      + inversion H. reflexivity.
      + discriminate.
      + destruct (Np.reshape_pairs t) as [ps|] eqn:E; simpl in H; [|discriminate].
        inversion H; subst. simpl in Hn. simpl.
        rewrite (IH t ps); [lia | lia | exact E]. }
  apply (Hgen (length ts)). lia.
Qed.

Lemma extract_intervals_spec (m : list bool) :
  exists ivs, extract_intervals m = Ok ivs /\
    runs 0 (Z.of_nat (length m)) ivs /\
    forall i, i < length m -> nth i m false = covered ivs (Z.of_nat i).
Proof.
  destruct (scan_spec m false 0) as (e & rest & ivs & Hscan & He & Hpairs & Hruns & Hcov).
  subst e. exists ivs. unfold extract_intervals. rewrite transitions_scan, Hscan.
  split; [exact Hpairs|]. split; [exact Hruns|].
  intros i Hi. specialize (Hcov (Z.of_nat i) ltac:(lia)).
  rewrite Z.sub_0_r, Nat2Z.id in Hcov. rewrite Hcov.
  replace (Z.of_nat i <? 0 - 1)%Z with false by (symmetry; apply Z.ltb_ge; lia).
  reflexivity.
Qed.

Lemma runs_bounds (lo hi : Z) (ivs : list (Z * Z)) :
  runs lo hi ivs ->
  Forall (fun iv => (lo <= fst iv /\ fst iv < snd iv /\ snd iv <= hi)%Z) ivs.
Proof.
  revert lo. induction ivs as [|[s e] t IH]; intros lo H; simpl in H.
  - constructor.
  - destruct H as [(H1 & H2 & H3) H4]. constructor; [simpl; lia|].
    apply IH in H4. eapply Forall_impl; [|exact H4].
    intros [s' e'] (A & B & C). simpl in *. lia.
Qed.

Lemma runs_sorted (lo hi : Z) (ivs : list (Z * Z)) :
  runs lo hi ivs ->
  StronglySorted (fun a b => (fst a < fst b)%Z) ivs /\
  ForallOrdPairs (fun a b => (snd a <= fst b)%Z) ivs.
Proof.
  revert lo. induction ivs as [|[s e] t IH]; intros lo H; simpl in H.
  - split; constructor.
  - destruct H as [(H1 & H2 & H3) H4].
    destruct (IH _ H4) as [Hs Hp]. pose proof (runs_bounds _ _ _ H4) as Hb.
    split; constructor; try assumption.
    + eapply Forall_impl; [|exact Hb]. intros [s' e'] (A & B & C). simpl in *. lia.
    + eapply Forall_impl; [|exact Hb]. intros [s' e'] (A & B & C). simpl in *. lia.
Qed.

(** C4. Round trip of the interval extraction: for every mask the
    extraction returns, and the mask of the same length that is set exactly
    at the indices lying in some extracted interval [start, end) is the
    mask the intervals were extracted from. *)
Theorem extract_intervals_round_trip (mask : list bool) :
  exists ivs, extract_intervals mask = Ok ivs /\
              mask_of_intervals (length mask) ivs = mask.
Proof.
  destruct (extract_intervals_spec mask) as (ivs & Hex & _ & Hcov).
  exists ivs. split; [exact Hex|].
  apply (nth_ext _ _ false false).
  - unfold mask_of_intervals. rewrite length_map, length_seq. reflexivity.
  - unfold mask_of_intervals. rewrite length_map, length_seq. intros i Hi.
    rewrite nth_map_seq by exact Hi. symmetry. apply Hcov. exact Hi.
Qed.

(** C9. For every mask the extracted intervals are sorted by ascending
    start index, an interval ends before any later one starts, and each
    has [start_index < end_index]. *)
Theorem extract_intervals_sorted_disjoint (mask : list bool) :
  exists ivs, extract_intervals mask = Ok ivs /\
    StronglySorted (fun a b => (fst a < fst b)%Z) ivs /\
    ForallOrdPairs (fun a b => (snd a <= fst b)%Z) ivs /\
    Forall (fun iv => (fst iv < snd iv)%Z) ivs.
Proof.
  destruct (extract_intervals_spec mask) as (ivs & Hex & Hruns & _).
  exists ivs. split; [exact Hex|].
  destruct (runs_sorted _ _ _ Hruns) as [Hs Hp].
  split; [exact Hs|]. split; [exact Hp|].
  eapply Forall_impl; [|exact (runs_bounds _ _ _ Hruns)].
  intros iv (_ & H & _). exact H.
Qed.

(** C10. In [detect], whenever the gap-filler returns a mask for the
    Aggregated Ratio Trace [db_agg], the transition indices of that mask
    come in even number, their reshape into (start, end) rows succeeds, and
    every row has [0 <= start_frame < end_frame <= len(db_agg)], so that the
    slice [db_agg[start_frame:end_frame]] has [end_frame - start_frame]
    entries. *)
Theorem detect_intervals_in_bounds
    (db_agg : list Q) (agg_thresh : Q) (window_sec silence_sec : number)
    (k : Z) (db_agg_bin : list bool) :
  gap_radius silence_sec window_sec = Ok k ->
  fill_gap (map (fun x => Qle_bool agg_thresh x) db_agg) k = Ok db_agg_bin ->
  Nat.even (length (transitions db_agg_bin)) = true /\
  exists interval_mat,
    Np.reshape_pairs (transitions db_agg_bin) = Ok interval_mat /\
    detect_intervals db_agg agg_thresh window_sec silence_sec = Ok interval_mat /\
    Forall (fun x => (0 <= fst x /\ fst x < snd x /\
                      snd x <= Z.of_nat (length db_agg))%Z /\
                     Z.of_nat (length (Py.slice db_agg (fst x) (snd x))) =
                       (snd x - fst x)%Z)
           interval_mat.
Proof.
  intros Hk Hfill.
  destruct (extract_intervals_spec db_agg_bin) as (ivs & Hex & Hruns & _).
  unfold extract_intervals in Hex.
  split.
  { rewrite (reshape_pairs_length _ Hex). rewrite Nat.even_mul. reflexivity. }
  exists ivs. split; [exact Hex|]. split.
  { unfold detect_intervals. rewrite Hk. cbn [bind]. rewrite Hfill. cbn [bind].
    exact Hex. }
  pose proof (fill_gap_length _ _ Hfill) as Hlen. rewrite length_map in Hlen.
  rewrite Hlen in Hruns.
  eapply Forall_impl; [|exact (runs_bounds _ _ _ Hruns)].
  intros [s e] (A & B & C). simpl in *. split; [lia|].
  unfold Py.slice, Py.slice_bound.
  replace (s <? 0)%Z with false by (symmetry; apply Z.ltb_ge; lia).
  replace (e <? 0)%Z with false by (symmetry; apply Z.ltb_ge; lia).
  rewrite length_firstn, length_skipn. lia.
Qed.

(** ** The test-tone classifier *)

Lemma sum_astype_int_filter {A : Type} (f : A -> bool) (l : list A) :
  Np.sum (Np.astype_int (map f l)) = Z.of_nat (length (filter f l)).
Proof.
  unfold Np.sum, Np.astype_int. induction l as [|x l IH]; [reflexivity|].
  cbn [map fold_right filter]. rewrite IH.
  destruct (f x); cbn [Z.b2z length]; lia.
Qed.


(** ** [int] truncates toward zero *)

Lemma int_nonneg (x : Q) : (0 <= x)%Q -> Py.int x = Qfloor x.
Proof.
  destruct x as [n d]. unfold Qle, Py.int, Qfloor. simpl. intros H.
  apply Z.quot_div_nonneg; lia.
Qed.

Lemma int_nonpos (x : Q) : (x <= 0)%Q -> Py.int x = Qceiling x.
Proof.
  destruct x as [n d]. unfold Qle, Py.int, Qceiling, Qfloor, Qopp. simpl. intros H.
  replace n with (- - n)%Z at 1 by lia.
  rewrite Z.quot_opp_l by lia. f_equal.
  apply Z.quot_div_nonneg; lia.
Qed.

Lemma int_truncates (x : Q) : truncation_of x (Py.int x).
Proof.
  split; intros H.
  - rewrite (int_nonneg H). split; [apply Qfloor_le | apply Qlt_floor].
  - rewrite (int_nonpos H). split; [apply Qceiling_lt | apply Qle_ceiling].
Qed.

Lemma truncation_unique (x : Q) (w w' : Z) :
  truncation_of x w -> truncation_of x w' -> w = w'.
Proof.
  intros [Hp Hn] [Hp' Hn'].
  destruct (Qlt_le_dec x 0) as [Hx | Hx].
  - destruct (Hn (Qlt_le_weak _ _ Hx)) as [A B].
    destruct (Hn' (Qlt_le_weak _ _ Hx)) as [A' B'].
    assert (H1 : (inject_Z (w - 1) < inject_Z w')%Q) by (eapply Qlt_le_trans; eassumption).
    assert (H2 : (inject_Z (w' - 1) < inject_Z w)%Q) by (eapply Qlt_le_trans; eassumption).
    rewrite <- Zlt_Qlt in H1, H2. lia.
  - destruct (Hp Hx) as [A B]. destruct (Hp' Hx) as [A' B'].
    assert (H1 : (inject_Z w < inject_Z (w' + 1))%Q) by (eapply Qle_lt_trans; eassumption).
    assert (H2 : (inject_Z w' < inject_Z (w + 1))%Q) by (eapply Qle_lt_trans; eassumption).
    rewrite <- Zlt_Qlt in H1, H2. lia.
Qed.

(** ** Window length and gap radius *)

Lemma int_float_truncates (x : float) (w : Z) :
  Py.int_float x = Ok w -> truncation_of (Py.float_value x) w.
Proof.
  unfold Py.int_float. intros H.
  destruct (Prim2SF x); inversion H; apply int_truncates.
Qed.

Lemma window_length_of_product (audio : AudioModel) (window_sec : number) (x : float) :
  window_product audio window_sec = Ok x ->
  window_length audio window_sec = Py.int_float x.
Proof. intros H. unfold window_length. rewrite H. reflexivity. Qed.

Lemma gap_radius_of_quotient (silence_sec window_sec : number) (h : float) :
  gap_quotient silence_sec window_sec = Ok h ->
  gap_radius silence_sec window_sec = Py.int_float h.
Proof. intros H. unfold gap_radius. rewrite H. reflexivity. Qed.

(** C1, as the code has it. For every audio input with positive
    [sample_rate] and [hop_length] and every [window_sec], the window
    length that [detect] hands to the Loudness Aggregator is the binary64
    value [x] of [sample_rate / hop_length * window_sec] truncated toward
    zero ([int(x)]), not rounded; when [x] is a NaN or an infinity,
    [int(x)] raises. *)
Theorem window_length_truncates
    (audio : AudioModel) (db_thresh : Q) (window_sec : number) (x : float) :
  (0 < sample_rate audio)%Z -> (0 < hop_length audio)%Z ->
  window_product audio window_sec = Ok x ->
  match Prim2SF x with
  | S754_nan => window_length audio window_sec = Raise ValueError
  | S754_infinity _ => window_length audio window_sec = Raise OverflowError
  | _ =>
      exists w,
        window_length audio window_sec = Ok w /\
        truncation_of (Py.float_value x) w /\
        detect_ratio audio db_thresh window_sec =
          aggregate (map (fun x => Qle_bool db_thresh x) (db audio)) w
  end.
Proof.
  intros Hsr Hhop Hx.
  pose proof (window_length_of_product _ _ Hx) as Hw.
  assert (Hcase : forall w, Py.int_float x = Ok w ->
            exists w,
              window_length audio window_sec = Ok w /\
              truncation_of (Py.float_value x) w /\
              detect_ratio audio db_thresh window_sec =
                aggregate (map (fun x => Qle_bool db_thresh x) (db audio)) w).
  { intros w Hint. exists w. rewrite Hw. split; [exact Hint|].
    split; [apply int_float_truncates; exact Hint|].
    unfold detect_ratio. rewrite Hw, Hint. reflexivity. }
  unfold Py.int_float in Hw, Hcase.
  destruct (Prim2SF x); try exact Hw; eapply Hcase; reflexivity.
Qed.

Lemma window_length_truncates_witness :
  exists w,
    window_length {| sample_rate := 8000; hop_length := 160; db := [] |}
                  (Float 0.375) = Ok w /\
    truncation_of (Py.float_value 18.75) w.
Proof.
  pose proof (@window_length_truncates
                {| sample_rate := 8000; hop_length := 160; db := [] |}
                (-25) (Float 0.375) 18.75) as H.
  destruct H as (w & Hw & Ht & _).
  - simpl. lia.
  - simpl. lia.
  - reflexivity.
  - exists w. split; [exact Hw | exact Ht].
Defined.

(** C1 as the specification words it fails: at 8000 samples per second,
    160 samples per hop and a window of 0.375 s, the product is 18.75;
    [detect] uses 18 frames per window where rounding gives 19. *)
Lemma window_length_not_rounded :
  let audio := {| sample_rate := 8000; hop_length := 160; db := [] |} in
  let window_sec := Float 0.375 in
  window_product audio window_sec = Ok 18.75%float /\
  window_length audio window_sec = Ok 18%Z /\
  spec_round (Py.float_value 18.75) = 19%Z /\
  window_length audio window_sec <> Ok (spec_round (Py.float_value 18.75)).
Proof.
  split; [reflexivity|]. split; [reflexivity|]. split; [reflexivity|]. discriminate.
Qed.

(** C2, as the code has it. For every [silence_sec] and [window_sec],
    [detect] calls the gap-filler with the binary64 value [h] of
    [silence_sec / window_sec / 2] truncated toward zero ([int(h)]), not
    rounded; when [h] is a NaN or an infinity, [int(h)] raises. *)
Theorem gap_radius_truncates
    (db_agg : list Q) (agg_thresh : Q) (window_sec silence_sec : number)
    (h : float) :
  gap_quotient silence_sec window_sec = Ok h ->
  match Prim2SF h with
  | S754_nan => gap_radius silence_sec window_sec = Raise ValueError
  | S754_infinity _ => gap_radius silence_sec window_sec = Raise OverflowError
  | _ =>
      exists k,
        gap_radius silence_sec window_sec = Ok k /\
        truncation_of (Py.float_value h) k /\
        detect_intervals db_agg agg_thresh window_sec silence_sec =
          (db_agg_bin <- fill_gap (map (fun x => Qle_bool agg_thresh x) db_agg) k ;;
           extract_intervals db_agg_bin)
  end.
Proof.
  intros Hh.
  pose proof (gap_radius_of_quotient _ _ Hh) as Hk.
  assert (Hcase : forall k, Py.int_float h = Ok k ->
            exists k,
              gap_radius silence_sec window_sec = Ok k /\
              truncation_of (Py.float_value h) k /\
              detect_intervals db_agg agg_thresh window_sec silence_sec =
                (db_agg_bin <- fill_gap (map (fun x => Qle_bool agg_thresh x) db_agg) k ;;
                 extract_intervals db_agg_bin)).
  { intros k Hint. exists k. rewrite Hk. split; [exact Hint|].
    split; [apply int_float_truncates; exact Hint|].
    unfold detect_intervals. rewrite Hk, Hint. reflexivity. }
  unfold Py.int_float in Hk, Hcase.
  destruct (Prim2SF h); try exact Hk; eapply Hcase; reflexivity.
Qed.

Lemma gap_radius_truncates_witness :
  exists k, gap_radius (Int 30) (Int 4) = Ok k /\
            truncation_of (Py.float_value 3.75) k.
Proof.
  pose proof (@gap_radius_truncates [] (2 # 100) (Int 4) (Int 30) 3.75) as H.
  destruct H as (k & Hk & Ht & _).
  - reflexivity.
  - exists k. split; [exact Hk | exact Ht].
Defined.

(** C2 as the specification words it fails: with [silence_sec = 30] and
    [window_sec = 4] the quotient is 3.75; [detect] passes [k = 3] where
    rounding gives 4. *)
Lemma gap_radius_not_rounded :
  gap_quotient (Int 30) (Int 4) = Ok 3.75%float /\
  gap_radius (Int 30) (Int 4) = Ok 3%Z /\
  spec_round (Py.float_value 3.75) = 4%Z /\
  gap_radius (Int 30) (Int 4) <> Ok (spec_round (Py.float_value 3.75)).
Proof.
  split; [reflexivity|]. split; [reflexivity|]. split; [reflexivity|]. discriminate.
Qed.

(** The truncation applies to the rounded binary64 value, not to the exact
    product or quotient of the decimal arguments: [50.0 * 0.3] is [15.0]
    though the float [0.3] is below 3/10, [100.0 * 0.29] is below 29,
    [30 / 0.1] is [300.0], and [0.6 / 0.1 / 2] is below 3. *)
Example window_length_of_three_tenths :
  window_length {| sample_rate := 8000; hop_length := 160; db := [] |} (Float 0.3)
  = Ok 15%Z.
Proof. reflexivity. Qed.

Example window_length_of_twenty_nine_hundredths :
  window_length {| sample_rate := 16000; hop_length := 160; db := [] |} (Float 0.29)
  = Ok 28%Z.
Proof. reflexivity. Qed.

Example gap_radius_of_tenth_windows :
  gap_radius (Int 30) (Float 0.1) = Ok 150%Z.
Proof. reflexivity. Qed.

Example gap_radius_of_short_silence :
  gap_radius (Float 0.6) (Float 0.1) = Ok 2%Z.
Proof. reflexivity. Qed.

Example defaults_window_length_and_radius :
  window_length (recording []) default_window_sec = Ok 250%Z /\
  gap_radius default_silence_sec default_window_sec = Ok 3%Z.
Proof. split; reflexivity. Qed.

(** ** The Loudness Aggregator *)

Lemma aggregate_zero (db_bin : list bool) :
  aggregate db_bin 0 = Raise ZeroDivisionError.
Proof. reflexivity. Qed.

Lemma aggregate_negative (db_bin : list bool) (w : Z) :
  (w < 0)%Z -> aggregate db_bin w = Raise ValueError.
Proof.
  intros Hw. unfold aggregate, Py.mod_.
  replace (w =? 0)%Z with false by (symmetry; apply Z.eqb_neq; lia).
  cbn [bind]. unfold Np.pad_right.
  set (n := Z.of_nat (length db_bin)).
  pose proof (Z.mod_neg_bound n w Hw) as Hm.
  pose proof (Z.mod_neg_bound (w - n mod w) w Hw) as Hp.
  destruct ((w - n mod w) mod w <? 0)%Z eqn:E; [reflexivity|].
  apply Z.ltb_ge in E.
  assert (Hp0 : ((w - n mod w) mod w = 0)%Z) by lia.
  rewrite Hp0. cbn [bind Z.to_nat repeat]. rewrite app_nil_r. fold n.
  assert (Hm0 : (n mod w = 0)%Z).
  { apply Z.mod_divide in Hp0; [|lia]. destruct Hp0 as [c Hc].
    assert (Hc1 : c = 1%Z); [|subst c; lia].
    destruct (Z.lt_trichotomy c 1) as [Hlt | [Heq | Hgt]]; [|exact Heq|].
    - assert (0 <= c * w)%Z by nia. lia.
    - assert (c * w <= 2 * w)%Z by nia. lia. }
  rewrite Hm0. cbn [Z.eqb assert bind]. unfold Np.reshape_rows.
  replace (w <=? 0)%Z with true by (symmetry; apply Z.leb_le; lia).
  reflexivity.
Qed.

Lemma aggregate_positive (db_bin : list bool) (w : Z) :
  (0 < w)%Z ->
  aggregate db_bin w =
  Ok (map Np.mean (Np.rows (length (padded db_bin w)) (Z.to_nat w) (padded db_bin w))).
Proof.
  intros Hw. unfold aggregate, Py.mod_.
  replace (w =? 0)%Z with false by (symmetry; apply Z.eqb_neq; lia).
  cbn [bind]. unfold Np.pad_right.
  pose proof (Z.mod_pos_bound (w - Z.of_nat (length db_bin) mod w) w Hw) as Hp.
  replace ((w - Z.of_nat (length db_bin) mod w) mod w <? 0)%Z with false
    by (symmetry; apply Z.ltb_ge; lia).
  cbn [bind]. fold (padded db_bin w).
  assert (Hdiv : (Z.of_nat (length (padded db_bin w)) mod w = 0)%Z).
  { unfold padded. rewrite length_app, repeat_length, Nat2Z.inj_add.
    rewrite Z2Nat.id by lia. rewrite Zplus_mod_idemp_r.
    set (n := Z.of_nat (length db_bin)).
    replace (n + (w - n mod w))%Z with ((n / w + 1) * w)%Z
      by (pose proof (Z.div_mod n w ltac:(lia)); lia).
    apply Z_mod_mult. }
  rewrite Hdiv. cbn [Z.eqb assert bind]. unfold Np.reshape_rows.
  replace (w <=? 0)%Z with false by (symmetry; apply Z.leb_gt; lia).
  rewrite Hdiv. reflexivity.
Qed.

Lemma padded_empty (w : Z) : (0 < w)%Z -> padded [] w = [].
Proof.
  intros Hw. unfold padded. cbn [length Z.of_nat app].
  rewrite Z.mod_0_l, Z.sub_0_r, Z.mod_same by lia. reflexivity.
Qed.

Lemma rows_forall {A : Type} (P : A -> Prop) (fuel w : nat) (l : list A) :
  (forall x, In x l -> P x) ->
  forall r, In r (Np.rows fuel w l) -> forall x, In x r -> P x.
Proof.
  revert l. induction fuel as [|fuel IH]; intros l Hl r Hr x Hx.
  - destruct Hr.
  - destruct l as [|y l]; [destruct Hr|].
    cbn [Np.rows] in Hr. destruct Hr as [<- | Hr].
    + apply Hl. rewrite <- (firstn_skipn w (y :: l)). apply in_or_app. now left.
    + apply (IH (skipn w (y :: l))) with (r := r); try assumption.
      intros z Hz. apply Hl. rewrite <- (firstn_skipn w (y :: l)).
      apply in_or_app. now right.
Qed.

Lemma mean_silent (r : list bool) :
  (forall x, In x r -> x = false) -> (Np.mean r == 0)%Q.
Proof.
  intros Hr. unfold Np.mean.
  assert (Hs : Np.sum (Np.astype_int r) = 0%Z).
  { unfold Np.sum, Np.astype_int. induction r as [|x r IH]; [reflexivity|].
    cbn [map fold_right]. rewrite IH by (intros; apply Hr; now right).
    rewrite (Hr x (or_introl eq_refl)). reflexivity. }
  rewrite Hs. unfold Qdiv. apply Qmult_0_l.
Qed.

Lemma nth_all_false (l : list bool) (m : nat) :
  (forall x, In x l -> x = false) -> nth m l false = false.
Proof.
  intros Hl. destruct (Nat.lt_ge_cases m (length l)) as [Hlt | Hge].
  - apply Hl. apply nth_In. exact Hlt.
  - apply nth_overflow. exact Hge.
Qed.

(** A trace with no active frame aggregates to windows that all fall
    below a positive [agg_thresh]. *)
Lemma aggregate_silent (db_bin : list bool) (w : Z) (agg_thresh : Q) :
  (0 < w)%Z -> (0 < agg_thresh)%Q ->
  (forall x, In x db_bin -> x = false) ->
  exists db_agg, aggregate db_bin w = Ok db_agg /\
    (db_bin <> [] -> db_agg <> []) /\
    forall m, nth m (map (fun x => Qle_bool agg_thresh x) db_agg) false = false.
Proof.
  intros Hw Hthr Hsilent. rewrite aggregate_positive by exact Hw.
  eexists. split; [reflexivity|]. split.
  - intros Hne E. apply Hne.
    destruct db_bin as [|x l]; [reflexivity|]. discriminate.
  - intros m. apply nth_all_false. intros b Hb.
    apply in_map_iff in Hb as (q & <- & Hq).
    apply in_map_iff in Hq as (r & <- & Hr).
    destruct (Qle_bool agg_thresh (Np.mean r)) eqn:E; [|reflexivity].
    apply Qle_bool_iff in E. rewrite mean_silent in E.
    + exfalso. apply (Qlt_not_le _ _ Hthr E).
    + apply (@rows_forall bool (fun x => x = false) (length (padded db_bin w))
               (Z.to_nat w) (padded db_bin w)) with (r := r); [|exact Hr].
      intros x Hx. unfold padded in Hx. apply in_app_or in Hx as [Hx | Hx].
      * apply Hsilent. exact Hx.
      * apply repeat_spec in Hx. exact Hx.
Qed.

(** ** Silent input *)

Lemma fill_gap_all_false (a r : list bool) (k : Z) :
  fill_gap a k = Ok r ->
  (forall m, nth m a false = false) ->
  forall t, nth t r false = false.
Proof.
  intros H Ha t.
  destruct (Z.lt_ge_cases k 0) as [Hk | Hk].
  - rewrite fill_gap_negative in H by exact Hk. discriminate.
  - apply (@fill_gap_keeps_wide_gap a r k t t); try assumption; [|lia].
    intros m _. apply Ha.
Qed.

Lemma extract_all_false (m : list bool) :
  (forall t, nth t m false = false) -> extract_intervals m = Ok [].
Proof.
  intros Hm. destruct (extract_intervals_spec m) as (ivs & Hex & Hruns & Hcov).
  destruct ivs as [|[s e] t]; [exact Hex|]. exfalso.
  simpl in Hruns. destruct Hruns as [(H1 & H2 & H3) _].
  specialize (Hcov (Z.to_nat s) ltac:(lia)).
  rewrite Hm, Z2Nat.id in Hcov by lia. simpl in Hcov.
  replace (s <=? s)%Z with true in Hcov by (symmetry; apply Z.leb_le; lia).
  replace (s <? e)%Z with true in Hcov by (symmetry; apply Z.ltb_lt; lia).
  discriminate.
Qed.

Lemma threshold_silent (db_thresh : Q) (l : list Q) :
  Forall (fun x => (x < db_thresh)%Q) l ->
  forall b, In b (map (fun x => Qle_bool db_thresh x) l) -> b = false.
Proof.
  intros Hl b Hb. apply in_map_iff in Hb as (x & <- & Hx).
  rewrite Forall_forall in Hl. specialize (Hl x Hx).
  destruct (Qle_bool db_thresh x) eqn:E; [|reflexivity].
  apply Qle_bool_iff in E. exfalso. apply (Qlt_not_le _ _ Hl E).
Qed.

Lemma detect_no_interval
    (audio : AudioModel) (db_thresh agg_thresh : Q)
    (window_sec silence_sec buffer_sec : number) (db_agg : list Q) :
  detect_ratio audio db_thresh window_sec = Ok db_agg ->
  detect_intervals db_agg agg_thresh window_sec silence_sec = Ok [] ->
  detect audio db_thresh agg_thresh window_sec silence_sec buffer_sec =
  Raise ValueError.
Proof.
  intros Hagg Hivs. unfold detect. rewrite Hagg. cbn [bind]. rewrite Hivs.
  reflexivity.
Qed.

(** On a non-empty trace whose frames are all below [db_thresh], with a
    positive window length, a non-negative gap radius and a positive
    [agg_thresh], the interval matrix has no rows and the assignment of
    line 81 raises. *)
Lemma detect_silent
    (audio : AudioModel) (db_thresh agg_thresh : Q)
    (window_sec silence_sec buffer_sec : number) (w k : Z) :
  Forall (fun x => (x < db_thresh)%Q) (db audio) ->
  db audio <> [] ->
  window_length audio window_sec = Ok w -> (0 < w)%Z ->
  gap_radius silence_sec window_sec = Ok k -> (0 <= k)%Z ->
  (0 < agg_thresh)%Q ->
  detect audio db_thresh agg_thresh window_sec silence_sec buffer_sec =
  Raise ValueError.
Proof.
  intros Hsilent Hne Hw Hwpos Hk Hkpos Hthr.
  destruct (@aggregate_silent (map (fun x => Qle_bool db_thresh x) (db audio))
              w agg_thresh Hwpos Hthr (threshold_silent Hsilent))
    as (db_agg & Hagg & Hagg_ne & Hmask).
  assert (Hfill : exists r,
            fill_gap (map (fun x => Qle_bool agg_thresh x) db_agg) k = Ok r).
  { destruct (Z.eq_dec k 0) as [-> | Hk0]; [eexists; reflexivity|].
    destruct (@fill_gap_closing (map (fun x => Qle_bool agg_thresh x) db_agg) k)
      as (r & Hr & _); [lia | | exists r; exact Hr].
    intros E. apply map_eq_nil in E. revert E. apply Hagg_ne.
    intros E. apply map_eq_nil in E. contradiction. }
  destruct Hfill as (r & Hr).
  apply (@detect_no_interval audio db_thresh agg_thresh window_sec silence_sec
           buffer_sec db_agg).
  - unfold detect_ratio. rewrite Hw. exact Hagg.
  - unfold detect_intervals. rewrite Hk. cbn [bind]. rewrite Hr. cbn [bind].
    exact (extract_all_false r (@fill_gap_all_false _ r k Hr Hmask)).
Qed.

(** C6 fails on the code. One minute of silence (3000 frames at -60 dB, all
    below [db_thresh = -25]) with the default arguments: every window ratio
    is 0, no interval is extracted, and [detect] does not return the empty
    Detection Result: the assignment of line 81 raises [ValueError]. *)
Theorem detect_all_silent_raises :
  let audio := recording (seconds 60 (-60)) in
  Forall (fun x => (x < default_db_thresh)%Q) (db audio) /\
  detect_ratio audio default_db_thresh default_window_sec
    = Ok (repeat (0 # 250)%Q 12) /\
  detect_intervals (repeat (0 # 250)%Q 12) default_agg_thresh default_window_sec
                   default_silence_sec = Ok [] /\
  detect_default audio = Raise ValueError.
Proof.
  split.
  - apply Forall_forall. intros x Hx. apply repeat_spec in Hx. subst x. reflexivity.
  - split; [vm_compute; reflexivity|]. split; vm_compute; reflexivity.
Qed.

(** ** Malformed input *)

Lemma detect_zero_window
    (audio : AudioModel) (db_thresh agg_thresh : Q)
    (window_sec silence_sec buffer_sec : number) :
  window_length audio window_sec = Ok 0%Z ->
  detect audio db_thresh agg_thresh window_sec silence_sec buffer_sec =
  Raise ZeroDivisionError.
Proof.
  intros Hw. unfold detect, detect_ratio. rewrite Hw. reflexivity.
Qed.

Lemma detect_negative_window
    (audio : AudioModel) (db_thresh agg_thresh : Q)
    (window_sec silence_sec buffer_sec : number) (w : Z) :
  window_length audio window_sec = Ok w -> (w < 0)%Z ->
  detect audio db_thresh agg_thresh window_sec silence_sec buffer_sec =
  Raise ValueError.
Proof.
  intros Hw Hneg. unfold detect, detect_ratio. rewrite Hw. cbn [bind].
  rewrite aggregate_negative by exact Hneg. reflexivity.
Qed.

Lemma detect_negative_radius
    (audio : AudioModel) (db_thresh agg_thresh : Q)
    (window_sec silence_sec buffer_sec : number) (w k : Z) :
  window_length audio window_sec = Ok w -> (0 < w)%Z ->
  gap_radius silence_sec window_sec = Ok k -> (k < 0)%Z ->
  detect audio db_thresh agg_thresh window_sec silence_sec buffer_sec =
  Raise ValueError.
Proof.
  intros Hw Hpos Hk Hneg. unfold detect, detect_ratio. rewrite Hw. cbn [bind].
  rewrite aggregate_positive by exact Hpos. cbn [bind].
  unfold detect_intervals. rewrite Hk. cbn [bind].
  rewrite fill_gap_negative by exact Hneg. reflexivity.
Qed.

(** An empty trace: a negative [k] is refused by [np.ones], a positive one
    by [np.convolve], and with [k = 0] no interval is extracted and the
    assignment of line 81 raises. *)
Lemma detect_empty_trace
    (audio : AudioModel) (db_thresh agg_thresh : Q)
    (window_sec silence_sec buffer_sec : number) (w k : Z) :
  db audio = [] ->
  window_length audio window_sec = Ok w -> (0 < w)%Z ->
  gap_radius silence_sec window_sec = Ok k ->
  detect audio db_thresh agg_thresh window_sec silence_sec buffer_sec =
  Raise ValueError.
Proof.
  intros Hdb Hw Hpos Hk. unfold detect, detect_ratio. rewrite Hw, Hdb. cbn [bind map].
  rewrite aggregate_positive by exact Hpos. cbn [bind].
  rewrite padded_empty by exact Hpos. cbn [length Np.rows map].
  unfold detect_intervals. rewrite Hk. cbn [bind map].
  destruct (Z.lt_trichotomy k 0) as [Hneg | [-> | Hk1]].
  - rewrite fill_gap_negative by exact Hneg. reflexivity.
  - reflexivity.
  - rewrite fill_gap_empty by lia. reflexivity.
Qed.

(** C3, as the code has it. Neither [fill_gap] nor [detect] validates its
    arguments; a malformed input fails at the first primitive that refuses
    it. A negative [k] makes [fill_gap] raise [ValueError] (the size
    [2k+1] of the structuring element is negative). In [detect], a window
    length of 0 raises [ZeroDivisionError] (the modulo that computes the
    padding) and a negative one raises [ValueError]; with a positive window
    length, a negative [k] raises [ValueError], and so does an empty
    Loudness Trace, whatever [k] is. *)
Theorem malformed_input_errors :
  (forall (a : list bool) (k : Z),
     (k < 0)%Z -> fill_gap a k = Raise ValueError) /\
  (forall audio db_thresh agg_thresh window_sec silence_sec buffer_sec,
     window_length audio window_sec = Ok 0%Z ->
     detect audio db_thresh agg_thresh window_sec silence_sec buffer_sec =
     Raise ZeroDivisionError) /\
  (forall audio db_thresh agg_thresh window_sec silence_sec buffer_sec w,
     window_length audio window_sec = Ok w -> (w < 0)%Z ->
     detect audio db_thresh agg_thresh window_sec silence_sec buffer_sec =
     Raise ValueError) /\
  (forall audio db_thresh agg_thresh window_sec silence_sec buffer_sec w k,
     window_length audio window_sec = Ok w -> (0 < w)%Z ->
     gap_radius silence_sec window_sec = Ok k -> (k < 0)%Z ->
     detect audio db_thresh agg_thresh window_sec silence_sec buffer_sec =
     Raise ValueError) /\
  (forall audio db_thresh agg_thresh window_sec silence_sec buffer_sec w k,
     db audio = [] ->
     window_length audio window_sec = Ok w -> (0 < w)%Z ->
     gap_radius silence_sec window_sec = Ok k ->
     detect audio db_thresh agg_thresh window_sec silence_sec buffer_sec =
     Raise ValueError).
Proof.
  split; [exact fill_gap_negative|].
  split; [exact detect_zero_window|].
  split; [exact detect_negative_window|].
  split; [exact detect_negative_radius | exact detect_empty_trace].
Qed.

Lemma malformed_input_errors_witness :
  let audio := {| sample_rate := 8000; hop_length := 160;
                  db := [(-60)%Q; (-10)%Q; (-60)%Q] |} in
  let empty := {| sample_rate := 8000; hop_length := 160; db := [] |} in
  fill_gap [false; true; false] (-1) = Raise ValueError /\
  detect audio (-25) 0.02 (Float 0.01) (Int 30) (Int 1) = Raise ZeroDivisionError /\
  detect audio (-25) 0.02 (Int (-5)) (Int 30) (Int 1) = Raise ValueError /\
  detect audio (-25) 0.02 (Int 5) (Int (-30)) (Int 1) = Raise ValueError /\
  detect empty (-25) 0.02 (Int 5) (Int 30) (Int 1) = Raise ValueError /\
  detect empty (-25) 0.02 (Int 5) (Int 0) (Int 1) = Raise ValueError.
Proof.
  destruct malformed_input_errors as (H1 & H2 & H3 & H4 & H5).
  split; [apply H1; lia|].
  split; [apply H2; reflexivity|].
  split; [apply (H3 _ _ _ _ _ _ (-250)%Z); [reflexivity | lia]|].
  split; [apply (H4 _ _ _ _ _ _ 250%Z (-3)%Z); [reflexivity | lia | reflexivity | lia]|].
  split; [apply (H5 _ _ _ _ _ _ 250%Z 3%Z); [reflexivity | reflexivity | lia | reflexivity]|].
  apply (H5 _ _ _ _ _ _ 250%Z 0%Z); [reflexivity | reflexivity | lia | reflexivity].
Defined.

(** C3 as the specification words it fails: a window of 0.01 s at 50
    frames per second gives [window_length = int(0.5) = 0], and [detect]
    stops with [ZeroDivisionError] at [len(audio.db) % window_length], which
    is not an invalid-argument error. *)
Lemma zero_window_is_not_an_invalid_argument_error :
  let audio := {| sample_rate := 8000; hop_length := 160;
                  db := [(-60)%Q; (-10)%Q; (-60)%Q] |} in
  window_length audio (Float 0.01) = Ok 0%Z /\
  detect audio (-25) 0.02 (Float 0.01) (Int 30) (Int 1) = Raise ZeroDivisionError /\
  detect audio (-25) 0.02 (Float 0.01) (Int 30) (Int 1) <> Raise ValueError.
Proof.
  split; [reflexivity|]. split; [reflexivity|]. discriminate.
Qed.

Lemma fill_gap_bridges_gap_witness :
  exists r,
    fill_gap [false; true; true; true; false; false; true; true; true; false] 1 = Ok r /\
    (forall t, 1 <= t < 9 -> nth t r false = true).
Proof.
  destruct (@fill_gap_bridges_gap 1 2 [false] [false]) as (r & Hr & _ & _ & Hjoin & _).
  - lia.
  - exists r. split; [exact Hr|]. intros t Ht. apply Hjoin; simpl; lia.
Defined.

Lemma detect_intervals_in_bounds_witness :
  exists interval_mat,
    detect_intervals [0; 1; 0; 0; 0; 0; 0; 0; 0; 0; 1; 1]%Q 0.02 (Int 5) (Int 30)
      = Ok interval_mat /\
    Forall (fun x => (0 <= fst x /\ fst x < snd x /\ snd x <= 12)%Z) interval_mat.
Proof.
  destruct (@detect_intervals_in_bounds
              [0; 1; 0; 0; 0; 0; 0; 0; 0; 0; 1; 1]%Q 0.02 (Int 5) (Int 30) 3
              [false; true; false; false; false; false; false; false; false; false; true; true])
    as (_ & ivs & _ & Hivs & Hb).
  - reflexivity.
  - reflexivity.
  - exists ivs. split; [exact Hivs|].
    eapply Forall_impl; [|exact Hb]. intros x [H _]. exact H.
Defined.

(** ** Scenarios of the specification *)

(** 40 s of silence, 10 s of activity, 40 s of silence: one interval, the
    active region widened by [buffer_sec] on either side. *)
Example one_active_region :
  detect_default
    (recording (seconds 40 (-60) ++ seconds 10 (-10) ++ seconds 40 (-60)))
  = Ok [(Int 39, Int 51)].
Proof. vm_compute. reflexivity. Qed.

(** Two active regions 15 s apart merge; 60 s apart they stay two. *)
Example short_silence_is_bridged :
  detect_default
    (recording (seconds 10 (-60) ++ seconds 10 (-10) ++ seconds 15 (-60)
                ++ seconds 10 (-10) ++ seconds 10 (-60)))
  = Ok [(Int 9, Int 46)].
Proof. vm_compute. reflexivity. Qed.

Example long_silence_is_kept :
  detect_default
    (recording (seconds 10 (-60) ++ seconds 10 (-10) ++ seconds 60 (-60)
                ++ seconds 10 (-10) ++ seconds 10 (-60)))
  = Ok [(Int 9, Int 21); (Int 79, Int 91)].
Proof. vm_compute. reflexivity. Qed.

(** A slice of ten windows that are all loud is a test tone; ten windows
    alternating between 0.1 and 0.9 are not. *)
Example uniform_loudness_is_noise :
  is_test_noise (repeat 0.97%Q 10)
                default_sample_ratio_thresh default_db_ratio_thresh = true.
Proof. reflexivity. Qed.

Example varying_loudness_is_not_noise :
  is_test_noise [0.1; 0.9; 0.1; 0.9; 0.1; 0.9; 0.1; 0.9; 0.1; 0.9]%Q
                default_sample_ratio_thresh default_db_ratio_thresh = false.
Proof. reflexivity. Qed.

(** The mask of the gap-bridging property without any context. *)
Example gap_of_two_is_bridged :
  fill_gap (repeat true 3 ++ repeat false 2 ++ repeat true 3) 1 =
  Ok (repeat true 8).
Proof. reflexivity. Qed.

Example gap_of_three_remains :
  fill_gap (repeat true 3 ++ repeat false 3 ++ repeat true 3) 1 =
  Ok (repeat true 3 ++ repeat false 3 ++ repeat true 3).
Proof. reflexivity. Qed.

(** * Further properties of the code *)

(** ** [fill_gap]: when it returns, and what it returns *)

(** [fill_gap] (lines 6-17) returns exactly when [k = 0], or [k >= 1] and
    the mask is not empty; every other call raises [ValueError]. *)
Theorem fill_gap_returns_iff (a : list bool) (k : Z) :
  ((exists r, fill_gap a k = Ok r) <-> k = 0%Z \/ (1 <= k)%Z /\ a <> []) /\
  (forall e, fill_gap a k = Raise e -> e = ValueError).
Proof.
  destruct (Z.lt_trichotomy k 0) as [Hk | [-> | Hk]].
  - rewrite fill_gap_negative by exact Hk. split.
    + split; [intros (r & H); discriminate | intros [H | [H _]]; lia].
    + intros e H. now inversion H.
  - split.
    + split; [now left | intros _; exists a; reflexivity].
    + intros e H. discriminate.
  - destruct a as [|x a].
    + rewrite fill_gap_empty by lia. split.
      * split; [intros (r & H); discriminate | intros [H | [_ H]]; [lia | contradiction]].
      * intros e H. now inversion H.
    + destruct (@fill_gap_closing (x :: a) k) as (r & Hr & _); [lia | discriminate |].
      rewrite Hr. split.
      * split; [intros _; right; split; [lia | discriminate] | intros _; now exists r].
      * intros e H. discriminate.
Qed.

Lemma set_entry_in_range (a : list bool) (m : nat) :
  nth m a false = true -> m < length a.
Proof.
  intros H. destruct (Nat.lt_ge_cases m (length a)) as [|Hge]; [assumption|].
  rewrite nth_overflow in H by exact Hge. discriminate.
Qed.

(** The last set entry at or before [t], when there is one. *)
Lemma last_set_before (a : list bool) (t : nat) :
  (exists m, m <= t /\ nth m a false = true) ->
  exists p, p <= t /\ nth p a false = true /\
            forall m, p < m <= t -> nth m a false = false.
Proof.
  induction t as [|t IH]; intros (m & Hm & Hset).
  - exists 0. replace m with 0 in Hset by lia.
    split; [lia|]. split; [exact Hset|]. intros i Hi. lia.
  - destruct (nth (S t) a false) eqn:E.
    + exists (S t). split; [lia|]. split; [exact E|]. intros i Hi. lia.
    + destruct IH as (p & Hp & Hpset & Hclear).
      { exists m. split; [|exact Hset].
        destruct (Nat.eq_dec m (S t)) as [-> | Hne]; [congruence | lia]. }
      exists p. split; [lia|]. split; [exact Hpset|].
      intros i Hi. destruct (Nat.eq_dec i (S t)) as [-> | Hne]; [exact E|].
      apply Hclear. lia.
Qed.

(** The first set entry at or after [t], when there is one. *)
Lemma first_set_after (a : list bool) (d t : nat) :
  nth (t + d) a false = true ->
  exists q, t <= q <= t + d /\ nth q a false = true /\
            forall m, t <= m < q -> nth m a false = false.
Proof.
  revert t. induction d as [|d IH]; intros t Hset.
  - exists t. rewrite Nat.add_0_r in Hset.
    split; [lia|]. split; [exact Hset|]. intros i Hi. lia.
  - destruct (nth t a false) eqn:E.
    + exists t. split; [lia|]. split; [exact E|]. intros i Hi. lia.
    + destruct (IH (S t)) as (q & Hq & Hqset & Hclear).
      { replace (S t + d) with (t + S d) by lia. exact Hset. }
      exists q. split; [lia|]. split; [exact Hqset|].
      intros i Hi. destruct (Nat.eq_dec i t) as [-> | Hne]; [exact E|].
      apply Hclear. lia.
Qed.

(** Entry [t] of the result, read off the input mask. *)
Lemma fill_gap_entry_iff (a r : list bool) (k : Z) (t : nat) :
  fill_gap a k = Ok r ->
  (nth t r false = true <->
   exists p q, p <= t <= q /\ q - p <= 2 * Z.to_nat k + 1 /\
               nth p a false = true /\ nth q a false = true).
Proof.
  intros H.
  destruct (Z.lt_trichotomy k 0) as [Hk | [-> | Hk]].
  { rewrite fill_gap_negative in H by exact Hk. discriminate. }
  { rewrite fill_gap_zero in H. inversion H; subst r. split.
    - intros Ht. exists t, t. repeat split; try assumption; lia.
    - intros (p & q & Ht & Hd & Hp & Hq).
      destruct (Nat.eq_dec p t) as [<- | Hne]; [exact Hp|].
      replace t with q by (simpl in Hd; lia). exact Hq. }
  split.
  - intros Ht.
    pose proof (fill_gap_length _ _ H) as Hlen.
    assert (Htr : t < length a) by (rewrite <- Hlen; apply set_entry_in_range; exact Ht).
    destruct (@fill_gap_closing a k) as (r' & Hr' & _ & Hspec).
    { lia. }
    { intros ->. simpl in Htr. lia. }
    rewrite Hr' in H. inversion H; subst r'.
    pose proof (proj1 (Hspec t Htr) Ht) as Hdil.
    set (K := Z.to_nat k) in *.
    destruct (Hdil t ltac:(lia)) as (m0 & _ & Hm0 & Hset0).
    destruct (Hdil (t + 2 * K) ltac:(lia)) as (m1 & _ & Hm1 & Hset1).
    destruct (@last_set_before a t) as (p & Hp & Hpset & Hpclear).
    { exists m0. split; [lia | exact Hset0]. }
    destruct (@first_set_after a (m1 - t) t) as (q & Hq & Hqset & Hqclear).
    { replace (t + (m1 - t)) with m1 by lia. exact Hset1. }
    exists p, q. split; [lia|]. split; [|split; assumption].
    destruct (Nat.le_gt_cases (q - p) (2 * K + 1)) as [|Hwide]; [assumption|].
    exfalso.
    assert (Hpt : p < t).
    { destruct (Nat.eq_dec p t) as [-> | Hne]; [|lia].
      assert (q = t); [|lia].
      destruct (Nat.eq_dec q t) as [|Hne]; [assumption|].
      rewrite Hqclear in Hpset by lia. discriminate. }
    assert (Hm0p : m0 <= p).
    { destruct (Nat.le_gt_cases m0 p) as [|Hgt]; [assumption|].
      rewrite Hpclear in Hset0 by lia. discriminate. }
    destruct (Hdil (p + 2 * K + 1) ltac:(lia)) as (m & _ & Hm & Hset).
    destruct (Nat.le_gt_cases m t) as [Hmt | Hmt].
    + rewrite Hpclear in Hset by lia. discriminate.
    + rewrite Hqclear in Hset by lia. discriminate.
  - intros (p & q & Ht & Hd & Hp & Hq).
    apply (@fill_gap_joins a r k p q t); try assumption; lia.
Qed.

(** What [fill_gap] computes, in terms of the input mask alone: entry [t]
    of the result is set exactly when [t] lies between two set entries
    [p <= t <= q] of the input that are at most [2k] cleared entries apart
    ([q - p <= 2k + 1]; [p = q = t] when the entry itself is set).  So set
    entries stay set, and the cleared entries before the first and after
    the last set entry stay cleared: the ends of the active region never
    move. *)
Theorem fill_gap_fills_exactly_short_gaps (a r : list bool) (k : Z) :
  fill_gap a k = Ok r ->
  (forall t, nth t r false = true <->
     exists p q, p <= t <= q /\ q - p <= 2 * Z.to_nat k + 1 /\
                 nth p a false = true /\ nth q a false = true) /\
  (forall t, nth t a false = true -> nth t r false = true) /\
  (forall t, (forall m, m <= t -> nth m a false = false) -> nth t r false = false) /\
  (forall t, (forall m, t <= m -> nth m a false = false) -> nth t r false = false).
Proof.
  intros H. split; [intros t; apply fill_gap_entry_iff; exact H|].
  split; [|split].
  - intros t Ht. apply (@fill_gap_entry_iff a r k t H).
    exists t, t. split; [lia|]. split; [lia|]. split; exact Ht.
  - intros t Hclear. destruct (nth t r false) eqn:E; [|reflexivity].
    apply (@fill_gap_entry_iff a r k t H) in E as (p & q & Ht & _ & Hp & _).
    rewrite Hclear in Hp by lia. discriminate.
  - intros t Hclear. destruct (nth t r false) eqn:E; [|reflexivity].
    apply (@fill_gap_entry_iff a r k t H) in E as (p & q & Ht & _ & _ & Hq).
    rewrite Hclear in Hq by lia. discriminate.
Qed.

Lemma fill_gap_fills_exactly_short_gaps_witness :
  let a := [false; true; false; false; true; false] in
  let r := [false; true; true; true; true; false] in
  fill_gap a 1 = Ok r /\
  (forall t, nth t r false = true <->
     exists p q, p <= t <= q /\ q - p <= 3 /\
                 nth p a false = true /\ nth q a false = true).
Proof.
  split; [reflexivity|].
  apply (@fill_gap_fills_exactly_short_gaps
           [false; true; false; false; true; false]
           [false; true; true; true; true; false] 1).
  reflexivity.
Defined.

(** A mask that [fill_gap] returned is left as it is by [fill_gap]. *)
Lemma fill_gap_closed (a r : list bool) (k : Z) :
  fill_gap a k = Ok r -> fill_gap r k = Ok r.
Proof.
  intros H.
  destruct (Z.lt_trichotomy k 0) as [Hk | [-> | Hk]].
  { rewrite fill_gap_negative in H by exact Hk. discriminate. }
  { reflexivity. }
  pose proof (fill_gap_length _ _ H) as Hlen.
  destruct a as [|x a]; [rewrite fill_gap_empty in H by lia; discriminate|].
  destruct (@fill_gap_closing (x :: a) k) as (r' & Hr' & _ & Hspec);
    [lia | discriminate |].
  rewrite Hr' in H. inversion H; subst r'.
  destruct (@fill_gap_closing r k) as (r2 & Hr2 & Hlen2 & Hspec2).
  { lia. }
  { intros ->. simpl in Hlen. lia. }
  rewrite Hr2. f_equal. apply (nth_ext _ _ false false); [exact Hlen2|].
  intros t Ht. rewrite Hlen2 in Ht. apply eq_true_iff_eq. split.
  - intros Ht2. apply Hspec; [lia|]. intros j Hj.
    destruct (proj1 (Hspec2 t Ht) Ht2 j Hj) as (m & Hm & Hmj & Hrm).
    apply (proj1 (Hspec m ltac:(lia)) Hrm). lia.
  - intros Htr. apply (fill_gap_extensive _ _ _ Hr2). exact Htr.
Qed.

(** Idempotence: applying [fill_gap] to its own result changes nothing,
    and when the first application raises so does the composition. *)
Theorem fill_gap_idempotent (a : list bool) (k : Z) :
  (r <- fill_gap a k ;; fill_gap r k) = fill_gap a k.
Proof.
  destruct (fill_gap a k) as [r|e] eqn:H; cbn [bind].
  - apply (fill_gap_closed _ _ H).
  - reflexivity.
Qed.

(** Monotonicity: a mask with more set entries, or a larger radius, gives
    a result with more set entries. *)
Theorem fill_gap_monotone (a b ra rb : list bool) (k k' : Z) :
  (forall t, nth t a false = true -> nth t b false = true) ->
  (k <= k')%Z ->
  fill_gap a k = Ok ra -> fill_gap b k' = Ok rb ->
  forall t, nth t ra false = true -> nth t rb false = true.
Proof.
  intros Hab Hk Ha Hb t Ht.
  apply (@fill_gap_entry_iff a ra k t Ha) in Ht as (p & q & Hpq & Hd & Hp & Hq).
  apply (@fill_gap_entry_iff b rb k' t Hb).
  exists p, q. split; [exact Hpq|]. split; [lia|]. split; apply Hab; assumption.
Qed.

Lemma fill_gap_monotone_witness :
  fill_gap [true; false; false; true] 0 = Ok [true; false; false; true] /\
  fill_gap [true; false; false; true] 1 = Ok [true; true; true; true] /\
  forall t, nth t [true; false; false; true] false = true ->
            nth t [true; true; true; true] false = true.
Proof.
  split; [reflexivity|]. split; [reflexivity|].
  apply (@fill_gap_monotone [true; false; false; true] [true; false; false; true]
           [true; false; false; true] [true; true; true; true] 0 1).
  - intros t Ht. exact Ht.
  - lia.
  - reflexivity.
  - reflexivity.
Defined.

(** ** The Loudness Aggregator, lines 64-69 *)

Lemma rows_length {A : Type} (fuel w : nat) (l : list A) :
  0 < w -> length l <= fuel ->
  length l <= length (Np.rows fuel w l) * w < length l + w.
Proof.
  intros Hw. revert l. induction fuel as [|fuel IH]; intros l Hl.
  - destruct l; [simpl; lia | simpl in Hl; lia].
  - destruct l as [|x l]; [simpl; lia|].
    cbn [Np.rows]. cbn [length].
    specialize (IH (skipn w (x :: l))).
    rewrite length_skipn in IH. cbn [length] in IH, Hl.
    specialize (IH ltac:(lia)).
    destruct (Nat.le_gt_cases w (S (length l))) as [Hle | Hgt].
    + lia.
    + replace (S (length l) - w) with 0 in IH by lia.
      assert (length (Np.rows fuel w (skipn w (x :: l))) = 0) by nia.
      lia.
Qed.


Lemma sum_astype_int_range (r : list bool) :
  (0 <= Np.sum (Np.astype_int r) <= Z.of_nat (length r))%Z.
Proof.
  rewrite <- (map_id r) at 1 2. rewrite sum_astype_int_filter.
  pose proof (filter_length_le (fun x : bool => x) r). lia.
Qed.

Lemma mean_range (r : list bool) : (0 <= Np.mean r <= 1)%Q.
Proof.
  unfold Np.mean. pose proof (sum_astype_int_range r) as Hs.
  destruct r as [|x r].
  - split; discriminate.
  - set (n := length (x :: r)) in *.
    assert (Hn : (0 < inject_Z (Z.of_nat n))%Q).
    { replace 0%Q with (inject_Z 0) by reflexivity. rewrite <- Zlt_Qlt.
      unfold n. simpl length. lia. }
    split.
    + apply Qle_shift_div_l; [exact Hn|]. rewrite Qmult_0_l.
      replace 0%Q with (inject_Z 0) by reflexivity. rewrite <- Zle_Qle. lia.
    + apply Qle_shift_div_r; [exact Hn|]. rewrite Qmult_1_l.
      rewrite <- Zle_Qle. lia.
Qed.

Lemma padded_length (db_bin : list bool) (w : Z) :
  (0 < w)%Z ->
  exists c, length (padded db_bin w) = c * Z.to_nat w /\
            length db_bin <= c * Z.to_nat w < length db_bin + Z.to_nat w.
Proof.
  intros Hw. unfold padded. rewrite length_app, repeat_length.
  set (n := Z.of_nat (length db_bin)).
  pose proof (Z.mod_pos_bound (w - n mod w) w Hw) as Hp.
  pose proof (Z.mod_pos_bound n w Hw) as Hm.
  pose proof (Z.div_mod n w ltac:(lia)) as Hn.
  assert (Hn0 : (0 <= n / w)%Z) by (apply Z.div_pos; unfold n; lia).
  destruct (Z.eq_dec (n mod w) 0) as [E | E].
  - exists (Z.to_nat (n / w)).
    rewrite E, Z.sub_0_r, Z.mod_same by lia. cbn [Z.to_nat].
    assert (length db_bin = Z.to_nat (n / w) * Z.to_nat w).
    { rewrite <- Z2Nat.inj_mul by lia. unfold n in *. lia. }
    lia.
  - exists (Z.to_nat (n / w + 1)).
    rewrite (Z.mod_small (w - n mod w) w) by lia.
    assert (length db_bin + Z.to_nat (w - n mod w) =
            Z.to_nat (n / w + 1) * Z.to_nat w).
    { rewrite <- Z2Nat.inj_mul by lia. unfold n in *. lia. }
    lia.
Qed.


Lemma sum_all_false (r : list bool) :
  (forall x, In x r -> x = false) -> Np.sum (Np.astype_int r) = 0%Z.
Proof.
  intros Hr. unfold Np.sum, Np.astype_int.
  induction r as [|x r IH]; [reflexivity|].
  cbn [map fold_right]. rewrite IH by (intros; apply Hr; now right).
  rewrite (Hr x (or_introl eq_refl)). reflexivity.
Qed.

Lemma aggregate_inversion (db_bin : list bool) (w : Z) (db_agg : list Q) :
  aggregate db_bin w = Ok db_agg ->
  (0 < w)%Z /\ (db_agg = [] <-> db_bin = []) /\
  db_agg = map Np.mean
             (Np.rows (length (padded db_bin w)) (Z.to_nat w) (padded db_bin w)).
Proof.
  intros H.
  destruct (Z.lt_trichotomy w 0) as [Hw | [-> | Hw]].
  - rewrite aggregate_negative in H by exact Hw. discriminate.
  - rewrite aggregate_zero in H. discriminate.
  - rewrite aggregate_positive in H by exact Hw. inversion H as [Hagg].
    split; [exact Hw|]. split; [|reflexivity].
    pose proof (@rows_length bool (length (padded db_bin w)) (Z.to_nat w)
                  (padded db_bin w) ltac:(lia) (le_n _)) as Hrows.
    split.
    + intros E. apply map_eq_nil in E. rewrite E in Hrows. simpl in Hrows.
      unfold padded in Hrows. rewrite length_app in Hrows.
      destruct db_bin; [reflexivity | simpl in Hrows; lia].
    + intros ->. rewrite padded_empty by exact Hw. reflexivity.
Qed.

Lemma padded_rows_count (db_bin : list bool) (w : Z) :
  (0 < w)%Z ->
  let count := length (Np.rows (length (padded db_bin w)) (Z.to_nat w)
                               (padded db_bin w)) in
  length (padded db_bin w) = count * Z.to_nat w /\
  length db_bin <= count * Z.to_nat w < length db_bin + Z.to_nat w.
Proof.
  intros Hw count.
  destruct (padded_length db_bin Hw) as (c & Hc & Hbound).
  pose proof (@rows_length bool (length (padded db_bin w)) (Z.to_nat w)
                (padded db_bin w) ltac:(lia) (le_n _)) as Hrows.
  fold count in Hrows. rewrite Hc in Hrows |- *.
  assert (Hcount : count = c).
  { destruct (Nat.lt_trichotomy count c) as [Hlt | [Heq | Hgt]]; [|exact Heq|].
    - assert ((count + 1) * Z.to_nat w <= c * Z.to_nat w)
        by (apply Nat.mul_le_mono_r; lia). lia.
    - assert ((c + 1) * Z.to_nat w <= count * Z.to_nat w)
        by (apply Nat.mul_le_mono_r; lia). lia. }
  rewrite Hcount. split; [reflexivity | exact Hbound].
Qed.

(** For a positive window length the aggregator returns one ratio per
    window, [ceil(len(db_bin) / window_length)] of them, each in [0, 1]. *)
Theorem aggregate_length_and_range (db_bin : list bool) (w : Z) :
  (0 < w)%Z ->
  exists db_agg, aggregate db_bin w = Ok db_agg /\
    Z.of_nat (length db_agg) = ((Z.of_nat (length db_bin) + w - 1) / w)%Z /\
    Forall (fun q => (0 <= q <= 1)%Q) db_agg.
Proof.
  intros Hw. rewrite aggregate_positive by exact Hw.
  eexists. split; [reflexivity|]. split.
  - rewrite length_map.
    destruct (padded_rows_count db_bin Hw) as (_ & Hbound).
    set (c := length (Np.rows _ _ _)) in *.
    apply (Z.div_unique _ _ _ (Z.of_nat (length db_bin) + w - 1 - w * Z.of_nat c)).
    + left. nia.
    + lia.
  - apply Forall_forall. intros q Hq. apply in_map_iff in Hq as (r & <- & _).
    apply mean_range.
Qed.

Lemma aggregate_length_and_range_witness :
  exists db_agg, aggregate [true; false; true; true; false] 2 = Ok db_agg /\
    Z.of_nat (length db_agg) = 3%Z /\
    Forall (fun q => (0 <= q <= 1)%Q) db_agg.
Proof.
  apply (@aggregate_length_and_range [true; false; true; true; false] 2). lia.
Defined.






(** ** [detect]: when it returns and how it fails *)




Lemma zero_number_int : zero_number (Int 0).
Proof. exists 0%float. split; reflexivity. Qed.






(** A float that compares equal to zero is a zero. *)
Lemma is_zero_spec (f : float) :
  is_zero f = true -> exists s, Prim2SF f = S754_zero s.
Proof.
  unfold is_zero. rewrite FloatAxioms.eqb_spec.
  change (Prim2SF zero) with (S754_zero false).
  destruct (Prim2SF f) as [s | s | | s m e].
  - intros _. exists s. reflexivity.
  - destruct s; discriminate.
  - discriminate.
  - destruct s; discriminate.
Qed.

(** The product of a float and a zero is a zero or a NaN, so a window of
    zero seconds never has a window length other than 0. *)
Lemma zero_window (audio : AudioModel) (window_sec : number) (w : Z) :
  zero_number window_sec ->
  window_length audio window_sec = Ok w -> w = 0%Z.
Proof.
  intros (f & Hf & Hz). destruct (@is_zero_spec f Hz) as (s & Hs).
  unfold window_length, window_product.
  destruct (Py.truediv (Int (sample_rate audio)) (Int (hop_length audio))) as [r|];
    [|discriminate].
  cbn [bind]. unfold Py.mul_float. rewrite Hf. cbn [bind].
  unfold Py.int_float, Py.float_value. rewrite FloatAxioms.mul_spec, Hs.
  destruct (Prim2SF r) as [sr | sr | | sr m e]; cbn; intros H;
    inversion H; reflexivity.
Qed.




(** The rows of the interval matrix: there are some exactly when some window
    ratio reaches [agg_thresh]. *)
Lemma extract_no_rows (r : list bool) (ivs : list (Z * Z)) :
  extract_intervals r = Ok ivs ->
  (ivs = [] <-> forall t, nth t r false = false).
Proof.
  intros Hex. split.
  - intros -> t. destruct (extract_intervals_spec r) as (ivs & Hex' & _ & Hcov).
    rewrite Hex in Hex'. inversion Hex'; subst ivs.
    destruct (Nat.lt_ge_cases t (length r)) as [Ht | Ht]; [|apply nth_overflow; exact Ht].
    rewrite (Hcov t Ht). reflexivity.
  - intros Hall. rewrite (extract_all_false r Hall) in Hex. now inversion Hex.
Qed.







(** ** Interval extraction: the intervals are the maximal runs *)

Lemma covered_in (ivs : list (Z * Z)) (s e j : Z) :
  In (s, e) ivs -> (s <= j < e)%Z -> covered ivs j = true.
Proof.
  intros Hin Hj. unfold covered. apply existsb_exists.
  exists (s, e). split; [exact Hin|]. simpl.
  apply andb_true_iff. split; [apply Z.leb_le | apply Z.ltb_lt]; lia.
Qed.

(** Just outside an interval of a list of runs, nothing is covered. *)
Lemma covered_outside (lo hi : Z) (ivs : list (Z * Z)) (s e : Z) :
  runs lo hi ivs -> In (s, e) ivs ->
  covered ivs (s - 1) = false /\ covered ivs e = false.
Proof.
  revert lo. induction ivs as [|[s0 e0] t IH]; intros lo Hruns Hin; [destruct Hin|].
  simpl in Hruns. destruct Hruns as [(H1 & H2 & H3) Ht].
  destruct Hin as [E | Hin].
  - inversion E; subst s0 e0. simpl.
    replace (s <=? s - 1)%Z with false by (symmetry; apply Z.leb_gt; lia).
    rewrite Z.ltb_irrefl, andb_false_r. simpl.
    split; eapply covered_below; try exact Ht; lia.
  - destruct (IH _ Ht Hin) as [Ha Hb].
    pose proof (runs_bounds _ _ _ Ht) as Hb'. rewrite Forall_forall in Hb'.
    specialize (Hb' _ Hin). simpl in Hb'. simpl.
    replace (s - 1 <? e0)%Z with false by (symmetry; apply Z.ltb_ge; lia).
    replace (e <? e0)%Z with false by (symmetry; apply Z.ltb_ge; lia).
    rewrite !andb_false_r. simpl. split; assumption.
Qed.

Lemma runs_consecutive (lo hi : Z) (l1 l2 : list (Z * Z)) (a b : Z * Z) :
  runs lo hi (l1 ++ a :: b :: l2) -> (snd a < fst b)%Z.
Proof.
  revert lo. induction l1 as [|[s e] l1 IH]; intros lo H.
  - destruct a as [s e], b as [s' e']. simpl in H.
    destruct H as [_ [(H1 & _) _]]. simpl. lia.
  - simpl in H. destruct H as [_ H]. apply (IH _ H).
Qed.

(** Every extracted interval is a maximal run of set entries: the mask is
    set throughout [start, end), and cleared just before [start] and at
    [end] (where the mask has such entries). *)
Theorem extract_intervals_maximal_runs (mask : list bool) :
  exists ivs, extract_intervals mask = Ok ivs /\
    Forall (fun iv =>
              (forall j, (fst iv <= j < snd iv)%Z ->
                         nth (Z.to_nat j) mask false = true) /\
              ((0 < fst iv)%Z -> nth (Z.to_nat (fst iv - 1)) mask false = false) /\
              nth (Z.to_nat (snd iv)) mask false = false)
           ivs.
Proof.
  destruct (extract_intervals_spec mask) as (ivs & Hex & Hruns & Hcov).
  exists ivs. split; [exact Hex|].
  pose proof (runs_bounds _ _ _ Hruns) as Hb. rewrite Forall_forall in Hb.
  apply Forall_forall. intros [s e] Hin. specialize (Hb _ Hin). simpl in Hb. simpl.
  destruct (@covered_outside _ _ ivs s e Hruns Hin) as [Hbefore Hafter].
  split; [|split].
  - intros j Hj. rewrite Hcov by lia. rewrite Z2Nat.id by lia.
    apply (@covered_in ivs s e j Hin Hj).
  - intros Hs. rewrite Hcov by lia. rewrite Z2Nat.id by lia. exact Hbefore.
  - destruct (Z.eq_dec e (Z.of_nat (length mask))) as [E | E].
    + apply nth_overflow. lia.
    + rewrite Hcov by lia. rewrite Z2Nat.id by lia. exact Hafter.
Qed.

(** No interval is extracted exactly when no entry of the mask is set. *)
Theorem extract_intervals_empty_iff (mask : list bool) :
  extract_intervals mask = Ok [] <-> forall t, nth t mask false = false.
Proof.
  split; [|apply extract_all_false].
  intros H t.
  destruct (extract_intervals_spec mask) as (ivs & Hex & _ & Hcov).
  rewrite H in Hex. inversion Hex; subst ivs.
  destruct (Nat.lt_ge_cases t (length mask)) as [Hlt | Hge].
  - rewrite Hcov by exact Hlt. reflexivity.
  - apply nth_overflow. exact Hge.
Qed.

(** ** Gap filling and extraction together *)

(** After gap filling with radius [k], two consecutive intervals of
    [detect] are more than [2k] windows apart: a silence of [2k] windows or
    fewer never separates two intervals. *)
Theorem detect_intervals_far_apart
    (db_agg : list Q) (agg_thresh : Q) (window_sec silence_sec : number)
    (k : Z) (interval_mat l1 l2 : list (Z * Z)) (a b : Z * Z) :
  gap_radius silence_sec window_sec = Ok k ->
  detect_intervals db_agg agg_thresh window_sec silence_sec = Ok interval_mat ->
  interval_mat = l1 ++ a :: b :: l2 ->
  (snd a + 2 * k < fst b)%Z.
Proof.
  intros Hk H Hsplit. unfold detect_intervals in H. rewrite Hk in H. cbn [bind] in H.
  destruct (fill_gap (map (fun x => Qle_bool agg_thresh x) db_agg) k)
    as [r|] eqn:Hr; [|discriminate].
  cbn [bind] in H.
  destruct (extract_intervals_spec r) as (ivs & Hex & Hruns & Hcov).
  rewrite Hex in H. inversion H; subst ivs. clear H.
  pose proof Hruns as Hsep. rewrite Hsplit in Hsep. apply runs_consecutive in Hsep.
  destruct (Z.lt_trichotomy k 0) as [Hneg | [-> | Hk1]].
  { rewrite fill_gap_negative in Hr by exact Hneg. discriminate. }
  { lia. }
  destruct (Z.lt_ge_cases (snd a + 2 * k) (fst b)) as [|Hnear]; [assumption|].
  exfalso.
  pose proof (runs_bounds _ _ _ Hruns) as Hb. rewrite Forall_forall in Hb.
  assert (Hina : In a interval_mat)
    by (rewrite Hsplit; apply in_or_app; right; now left).
  assert (Hinb : In b interval_mat)
    by (rewrite Hsplit; apply in_or_app; right; right; now left).
  pose proof (Hb _ Hina) as Ha. pose proof (Hb _ Hinb) as Hbb.
  destruct a as [s e], b as [s' e']. cbn [fst snd] in *.
  destruct (@covered_outside _ _ interval_mat s e Hruns Hina) as [_ Hafter].
  assert (Hlast : nth (Z.to_nat (e - 1)) r false = true).
  { rewrite Hcov by lia. rewrite Z2Nat.id by lia. apply (@covered_in interval_mat s e _ Hina). lia. }
  assert (Hfirst : nth (Z.to_nat s') r false = true).
  { rewrite Hcov by lia. rewrite Z2Nat.id by lia. apply (@covered_in interval_mat s' e' _ Hinb). lia. }
  assert (Hgap : nth (Z.to_nat e) r false = false).
  { rewrite Hcov by lia. rewrite Z2Nat.id by lia. exact Hafter. }
  assert (Hset : nth (Z.to_nat e) r false = true).
  { apply (@fill_gap_joins r r k (Z.to_nat (e - 1)) (Z.to_nat s') (Z.to_nat e));
      [lia | apply (@fill_gap_closed _ r k Hr) | exact Hlast | exact Hfirst | lia | lia]. }
  rewrite Hgap in Hset. discriminate Hset.
Qed.

Lemma detect_intervals_far_apart_witness :
  detect_intervals [0; 1; 0; 0; 0; 0; 0; 0; 0; 0; 1; 1]%Q 0.02 (Int 5) (Int 30) =
    Ok [(1, 2); (10, 12)]%Z /\
  (snd (1, 2) + 2 * 3 < fst (10, 12))%Z.
Proof.
  split; [reflexivity|].
  apply (@detect_intervals_far_apart
           [0; 1; 0; 0; 0; 0; 0; 0; 0; 0; 1; 1]%Q 0.02 (Int 5) (Int 30) 3
           [(1, 2); (10, 12)]%Z [] [] (1, 2)%Z (10, 12)%Z).
  - reflexivity.
  - reflexivity.
  - reflexivity.
Defined.

(** ** The Detection Result *)

Lemma runs_separated (lo hi : Z) (ivs : list (Z * Z)) :
  runs lo hi ivs -> StronglySorted (fun a b => (snd a < fst b)%Z) ivs.
Proof.
  revert lo. induction ivs as [|[s e] t IH]; intros lo H; simpl in H.
  - constructor.
  - destruct H as [_ Ht]. constructor; [apply (IH _ Ht)|].
    eapply Forall_impl; [|exact (runs_bounds _ _ _ Ht)].
    intros [s' e'] (A & _). simpl in *. lia.
Qed.

Section Frames.

Variables (A B C : Type).
Variable h : A -> B.
Variable keep : B -> bool.
Variable f : B -> C.

Lemma frame_forall (P : A -> Prop) (P' : C -> Prop) (l : list A) :
  (forall a, P a -> P' (f (h a))) ->
  Forall P l -> Forall P' (map f (filter keep (map h l))).
Proof.
  intros Himp Hl. induction Hl as [|a l Ha Hl IH]; [constructor|].
  cbn [map filter]. destruct (keep (h a)); [|exact IH].
  cbn [map]. constructor; [apply Himp; exact Ha | exact IH].
Qed.

Lemma frame_sorted (R : A -> A -> Prop) (R' : C -> C -> Prop) (l : list A) :
  (forall a b, R a b -> R' (f (h a)) (f (h b))) ->
  StronglySorted R l -> StronglySorted R' (map f (filter keep (map h l))).
Proof.
  intros Himp Hl. induction Hl as [|a l Hl IH Ha]; [constructor|].
  cbn [map filter]. destruct (keep (h a)); [|exact IH].
  cbn [map]. constructor; [exact IH|].
  apply frame_forall with (P := R a); [exact (Himp a) | exact Ha].
Qed.

End Frames.

Lemma wrap64_id (z : Z) : (- 2 ^ 63 <= z < 2 ^ 63)%Z -> Np.wrap64 z = z.
Proof.
  intros H. unfold Np.wrap64. rewrite Z.mod_small by lia. lia.
Qed.

Lemma aggregate_count (db_bin : list bool) (w : Z) (db_agg : list Q) :
  aggregate db_bin w = Ok db_agg -> length db_agg <= length db_bin.
Proof.
  intros H. destruct (aggregate_inversion _ _ H) as (Hpos & _ & ->).
  rewrite length_map. destruct (padded_rows_count db_bin Hpos) as (_ & Hc).
  cbv zeta in Hc. nia.
Qed.

Lemma assign_apply_ok {A B : Type} (f : A -> B) (frame : list A)
    (out : list (A * B)) :
  Pd.assign_apply f frame = Ok out -> out = map (fun x => (x, f x)) frame.
Proof.
  destruct frame; [discriminate|]. intros H. now inversion H.
Qed.

(** With an integer [window_sec > 0] and an integer [buffer_sec], on a
    trace short enough for the seconds to stay within [int64]
    ([len(audio.db) * window_sec + |buffer_sec| < 2^63]), the two columns
    [detect] returns hold integers, and with the buffer taken off again
    ([start_sec + buffer_sec] to [end_sec - buffer_sec]) the intervals have
    positive length and each ends before every later one starts: the
    result is in ascending time order, and intervals can only overlap
    through the buffer.  With a non-negative [buffer_sec] every interval
    has [start_sec < end_sec]. *)
Theorem detect_output_ordered
    (audio : AudioModel) (db_thresh agg_thresh : Q)
    (window_sec buffer_sec : Z) (silence_sec : number)
    (out : list (number * number)) :
  (0 < window_sec)%Z ->
  (Z.of_nat (length (db audio)) * window_sec + Z.abs buffer_sec < 2 ^ 63)%Z ->
  detect audio db_thresh agg_thresh (Int window_sec) silence_sec (Int buffer_sec)
    = Ok out ->
  exists rows : list (Z * Z),
    out = map (fun p => (Int (fst p), Int (snd p))) rows /\
    Forall (fun p => (fst p + buffer_sec < snd p - buffer_sec)%Z) rows /\
    StronglySorted (fun p p' => (snd p - buffer_sec < fst p' + buffer_sec)%Z) rows /\
    ((0 <= buffer_sec)%Z -> Forall (fun p => (fst p < snd p)%Z) rows).
Proof.
  intros Hws Hfit H. unfold detect in H.
  destruct (detect_ratio audio db_thresh (Int window_sec)) as [db_agg|] eqn:Hagg;
    [|discriminate].
  cbn [bind] in H.
  destruct (detect_intervals db_agg agg_thresh (Int window_sec) silence_sec)
    as [interval_mat|] eqn:Hiv; [|discriminate].
  cbn [bind] in H.
  assert (Hn : length db_agg <= length (db audio)).
  { unfold detect_ratio in Hagg.
    destruct (window_length audio (Int window_sec)) as [w|]; [|discriminate].
    cbn [bind] in Hagg. apply aggregate_count in Hagg.
    rewrite length_map in Hagg. exact Hagg. }
  assert (Hruns : runs 0 (Z.of_nat (length db_agg)) interval_mat).
  { unfold detect_intervals in Hiv.
    destruct (gap_radius silence_sec (Int window_sec)) as [k|]; [|discriminate].
    cbn [bind] in Hiv.
    destruct (fill_gap (map (fun x => Qle_bool agg_thresh x) db_agg) k) as [r|] eqn:Hr;
      [|discriminate].
    cbn [bind] in Hiv.
    destruct (extract_intervals_spec r) as (ivs & Hex & Hr' & _).
    rewrite Hex in Hiv. inversion Hiv; subst ivs.
    rewrite (fill_gap_length _ _ Hr), length_map in Hr'. exact Hr'. }
  match type of H with
  | (out_df <- Pd.assign_apply ?f interval_mat ;; _) = _ =>
      destruct (Pd.assign_apply f interval_mat) as [df|] eqn:Hdf; [|discriminate]
  end.
  apply assign_apply_ok in Hdf. subst df. cbn [bind] in H.
  inversion H as [Hout]. clear H Hout. rewrite map_map.
  match goal with
  | |- context [filter ?keep (map ?h interval_mat)] =>
      exists (map (fun x => (start_frame x * window_sec - buffer_sec,
                             end_frame x * window_sec + buffer_sec)%Z)
                  (filter keep (map h interval_mat)))
  end.
  pose proof (runs_bounds _ _ _ Hruns) as Hb.
  split; [|split; [|split]].
  - rewrite map_map. apply map_ext_in. intros x Hx.
    apply filter_In in Hx as [Hx _]. apply in_map_iff in Hx as ([s e] & <- & Hin).
    rewrite Forall_forall in Hb. destruct (Hb _ Hin) as (H0 & Hse & He).
    cbn [fst snd start_frame end_frame] in *.
    cbn [Np.sub_scalar Np.add_scalar Np.mul_scalar].
    rewrite (wrap64_id (z := s * window_sec)) by nia.
    rewrite (wrap64_id (z := e * window_sec)) by nia.
    rewrite !wrap64_id by nia. reflexivity.
  - eapply frame_forall; [|exact Hb].
    intros [s e] (_ & Hse & _). cbn [fst snd start_frame end_frame] in *. nia.
  - eapply frame_sorted; [|exact (runs_separated _ _ _ Hruns)].
    intros [s e] [s' e'] Hsep. cbn [fst snd start_frame end_frame] in *. nia.
  - intros Hbuf. eapply frame_forall; [|exact Hb].
    intros [s e] (_ & Hse & _). cbn [fst snd start_frame end_frame] in *. nia.
Qed.

Lemma detect_output_ordered_witness :
  exists rows : list (Z * Z),
    [(Int 39, Int 51)] = map (fun p => (Int (fst p), Int (snd p))) rows /\
    Forall (fun p => (fst p + 1 < snd p - 1)%Z) rows /\
    StronglySorted (fun p p' => (snd p - 1 < fst p' + 1)%Z) rows /\
    ((0 <= 1)%Z -> Forall (fun p => (fst p < snd p)%Z) rows).
Proof.
  apply (@detect_output_ordered
           (recording (seconds 40 (-60) ++ seconds 10 (-10) ++ seconds 40 (-60)))
           default_db_thresh default_agg_thresh 5 1 default_silence_sec).
  - lia.
  - vm_compute. reflexivity.
  - vm_compute. reflexivity.
Defined.

(** ** The test-tone classifier at the extremes *)

Lemma count_all {A : Type} (f : A -> bool) (l : list A) :
  (forall x, In x l -> f x = true) ->
  Np.sum (Np.astype_int (map f l)) = Z.of_nat (length l).
Proof.
  intros H. rewrite sum_astype_int_filter. f_equal.
  induction l as [|x l IH]; [reflexivity|].
  cbn [filter]. rewrite (H x (or_introl eq_refl)). cbn [length].
  rewrite IH; [reflexivity|]. intros; apply H; now right.
Qed.

Lemma count_none {A : Type} (f : A -> bool) (l : list A) :
  (forall x, In x l -> f x = false) ->
  Np.sum (Np.astype_int (map f l)) = 0%Z.
Proof.
  intros H. apply sum_all_false. intros b Hb.
  apply in_map_iff in Hb as (x & <- & Hx). apply H. exact Hx.
Qed.

Lemma is_test_noise_uniform (db_agg : list Q) (sample_ratio_thresh db_ratio_thresh : Q) :
  4 <= length db_agg ->
  Forall (fun x => (db_ratio_thresh <= x)%Q) db_agg ->
  (sample_ratio_thresh <= 1)%Q ->
  is_test_noise db_agg sample_ratio_thresh db_ratio_thresh = true.
Proof.
  intros Hlen Hall Hthr. unfold is_test_noise.
  replace (length db_agg <? 4) with false by (symmetry; apply Nat.ltb_ge; exact Hlen).
  rewrite count_all.
  - apply Qle_bool_iff. unfold Qdiv. rewrite Qmult_inv_r; [exact Hthr|].
    unfold Qeq. simpl. lia.
  - rewrite Forall_forall in Hall. intros x Hx. apply Qle_bool_iff. apply Hall. exact Hx.
Qed.

(** A slice of at least 4 samples that are all [>= db_ratio_thresh] is a
    test tone whenever [sample_ratio_thresh <= 1]; a slice without any
    sample [>= db_ratio_thresh] never is, whenever
    [sample_ratio_thresh > 0]. *)
Theorem is_test_noise_extremes
    (db_agg : list Q) (sample_ratio_thresh db_ratio_thresh : Q) :
  (4 <= length db_agg ->
   Forall (fun x => (db_ratio_thresh <= x)%Q) db_agg ->
   (sample_ratio_thresh <= 1)%Q ->
   is_test_noise db_agg sample_ratio_thresh db_ratio_thresh = true) /\
  (Forall (fun x => (x < db_ratio_thresh)%Q) db_agg ->
   (0 < sample_ratio_thresh)%Q ->
   is_test_noise db_agg sample_ratio_thresh db_ratio_thresh = false).
Proof.
  split; [apply is_test_noise_uniform|].
  intros Hall Hthr. unfold is_test_noise.
  destruct (length db_agg <? 4); [reflexivity|].
  rewrite count_none.
  - destruct (Qle_bool sample_ratio_thresh (inject_Z 0 / inject_Z (Z.of_nat (length db_agg))))
      eqn:E; [|reflexivity].
    apply Qle_bool_iff in E. unfold Qdiv in E. rewrite Qmult_0_l in E.
    exfalso. apply (Qlt_not_le _ _ Hthr E).
  - rewrite Forall_forall in Hall. intros x Hx.
    destruct (Qle_bool db_ratio_thresh x) eqn:E; [|reflexivity].
    apply Qle_bool_iff in E. exfalso. apply (Qlt_not_le _ _ (Hall x Hx) E).
Qed.

(** ** A recording that is loud throughout *)








(** ** The table of [VADJob] *)

Lemma to_uint_nonnil (n : nat) : Nat.to_uint n <> Decimal.Nil.
Proof.
  rewrite <- (DecimalNat.Unsigned.of_to n) at 1.
  rewrite DecimalNat.Unsigned.to_of. apply DecimalFacts.unorm_nonnil.
Qed.

Lemma int_of_str_str (n : nat) : int_of_str (str n) = Some n.
Proof.
  unfold int_of_str, str.
  rewrite DecimalString.NilZero.usu by apply to_uint_nonnil.
  cbn [option_map]. rewrite DecimalNat.Unsigned.of_to. reflexivity.
Qed.

(** The table that [VADJob] writes has one row per interval of [detect],
    in the same order; row [i] (from 0) carries the id [str(i + 1)], which
    reads back as the number [i + 1], so the ids are the numerals 1, 2, ...
    without repetition.  When [detect] raises, so does the job. *)
Theorem VADJob_frame_rows (audio : AudioModel) :
  match detect_default audio with
  | Raise e => VADJob_frame audio = Raise e
  | Ok vad_df =>
      exists frame, VADJob_frame audio = Ok frame /\
        length frame = length vad_df /\
        NoDup (map (fun x => fst (fst x)) frame) /\
        forall i, i < length frame ->
          let x := nth i frame (String.EmptyString, Int 0, Int 0) in
          fst (fst x) = str (i + 1) /\
          int_of_str (fst (fst x)) = Some (i + 1) /\
          (snd (fst x), snd x) = nth i vad_df (Int 0, Int 0)
  end.
Proof.
  unfold VADJob_frame. destruct (detect_default audio) as [vad_df|e]; [|reflexivity].
  cbn [bind]. eexists. split; [reflexivity|].
  set (ids := map str (seq 1 (length vad_df))).
  assert (Hids : length ids = length vad_df)
    by (unfold ids; rewrite length_map, length_seq; reflexivity).
  assert (Hlen : length (combine ids vad_df) = length vad_df)
    by (rewrite length_combine, Hids; apply Nat.min_id).
  assert (Hrow : forall i, i < length vad_df ->
            nth i (map (fun x => (fst x, fst (snd x), snd (snd x))) (combine ids vad_df))
                (String.EmptyString, Int 0, Int 0) =
            (str (i + 1), fst (nth i vad_df (Int 0, Int 0)), snd (nth i vad_df (Int 0, Int 0)))).
  { intros i Hi.
    change (String.EmptyString, Int 0, Int 0)
      with ((fun x : String.string * (number * number) => (fst x, fst (snd x), snd (snd x)))
              (String.EmptyString, (Int 0, Int 0))).
    rewrite map_nth, combine_nth by exact Hids. cbn [fst snd]. unfold ids.
    rewrite (nth_indep _ String.EmptyString (str 0))
      by (rewrite length_map, length_seq; exact Hi).
    rewrite map_nth, seq_nth by exact Hi.
    replace (1 + i) with (i + 1) by lia. reflexivity. }
  split; [rewrite length_map; exact Hlen|]. split.
  - rewrite map_map. cbn [fst].
    assert (Hfst : map (fun x : String.string * (number * number) => fst x) (combine ids vad_df) = ids).
    { clear Hlen Hrow. revert Hids. generalize ids. clear ids.
      induction vad_df as [|y l IH]; intros [|s ids] H; try discriminate; [reflexivity|].
      cbn [combine map fst]. f_equal. apply IH. simpl in H. lia. }
    rewrite Hfst. unfold ids.
    apply Finite.Injective_map_NoDup; [|apply seq_NoDup].
    intros a b Hab. apply (f_equal int_of_str) in Hab.
    rewrite !int_of_str_str in Hab. now inversion Hab.
  - intros i Hi. rewrite length_map, Hlen in Hi. cbv zeta.
    rewrite (Hrow i Hi). cbn [fst snd].
    split; [reflexivity|]. split; [apply int_of_str_str|].
    destruct (nth i vad_df (Int 0, Int 0)); reflexivity.
Qed.

(** ** Division by zero *)

(** [detect] stops with [ZeroDivisionError] when [hop_length] is 0 (the
    division of line 62) and when [window_sec] is 0 and the window length
    can be computed (it is then 0, and the modulo of line 64 divides by
    it), whatever the other arguments are.  The window length of a zero
    [window_sec] cannot be computed only when the quotient
    [sample_rate / hop_length] is not in the range of a float. *)
Theorem detect_division_by_zero
    (audio : AudioModel) (db_thresh agg_thresh : Q)
    (window_sec silence_sec buffer_sec : number) :
  hop_length audio = 0%Z \/
  (zero_number window_sec /\ exists w, window_length audio window_sec = Ok w) ->
  detect audio db_thresh agg_thresh window_sec silence_sec buffer_sec =
  Raise ZeroDivisionError.
Proof.
  intros [Hhop | (Hz & w & Hw)].
  - unfold detect, detect_ratio, window_length, window_product.
    cbn [Py.truediv]. unfold Py.truediv_int. rewrite Hhop. reflexivity.
  - apply detect_zero_window.
    rewrite (@zero_window audio window_sec w Hz Hw) in Hw. exact Hw.
Qed.

Lemma detect_division_by_zero_witness :
  detect {| sample_rate := 8000; hop_length := 0; db := [(-10)%Q] |}
         (-25) 0.02 (Int 5) (Int 30) (Int 1) = Raise ZeroDivisionError /\
  detect (recording (seconds 1 (-10))) (-25) 0.02 (Int 0) (Int 30) (Int 1)
    = Raise ZeroDivisionError /\
  detect (recording (seconds 1 (-10))) (-25) 0.02 (Float (-0)) (Int 30) (Int 1)
    = Raise ZeroDivisionError.
Proof.
  split; [|split].
  - apply (@detect_division_by_zero
             {| sample_rate := 8000; hop_length := 0; db := [(-10)%Q] |}
             (-25) 0.02 (Int 5) (Int 30) (Int 1)).
    left. reflexivity.
  - apply (@detect_division_by_zero (recording (seconds 1 (-10))) (-25) 0.02
             (Int 0) (Int 30) (Int 1)).
    right. split; [exact zero_number_int|]. exists 0%Z. reflexivity.
  - apply (@detect_division_by_zero (recording (seconds 1 (-10))) (-25) 0.02
             (Float (-0)) (Int 30) (Int 1)).
    right. split; [exists (-0)%float; split; reflexivity|]. exists 0%Z. reflexivity.
Defined.
